(** * elf_changes: the table extractor and the change computer

    A shallow embedding of [src/elf_changes.py] (class [ElfChanges]):
    the two extraction passes over the text of [readelf -a],
    [_parse_readelf_sections] and [_parse_readelf_symbols], and the
    three-way difference [_changes].

    Modelling conventions.
    - A Python [str] is a Rocq [string]; a character is a code point
      below 256.  The categories [\s], [\d] and [\w] of [re] and the
      method [str.strip] are given on that range as CPython decides
      them for [str] patterns.  Above that range the categories are
      larger, and under [re.IGNORECASE] a range of ASCII letters also
      takes the four code points whose case mapping is an ASCII letter
      (U+0130, U+0131, U+017F and U+212A); a statement below that
      names a set of characters names it within the range modelled.
    - A dict keyed by names is a [gmap string _]; no statement below
      depends on the iteration order of a dict.
    - A Python [int] is a [Z].  [int(text, base)] and the formatting
      of an [int] are those of CPython with its default limit on
      conversions between [int] and [str]: in a base that is not a
      power of two, a text of more than 4300 digits is refused, and so
      is the printing of a number of more than 4300 decimal digits.
    - A call that can raise returns an [option]; [None] stands for the
      exception, which nothing in the source catches, so it propagates
      through the loops to the caller. *)

From Stdlib Require Import ZArith Ascii String List Bool Lia DecimalString.
From stdpp Require Import base option gmap strings list fin_maps.

Local Open Scope Z_scope.

(** * The program *)

(** ** Characters *)

Module Char.

Definition ord (c : ascii) : Z := Z.of_N (N_of_ascii c).

Definition between (lo hi : Z) (c : ascii) : bool :=
  (lo <=? ord c) && (ord c <=? hi).

(** [str.isspace] on one character; also the category [\s]. *)
Definition isspace (c : ascii) : bool :=
  between 9 13 c || between 28 32 c || (ord c =? 133) || (ord c =? 160).

(** The category [\d]. *)
Definition isdecimal (c : ascii) : bool := between 48 57 c.

Definition isupper_ascii (c : ascii) : bool := between 65 90 c.

Definition islower_ascii (c : ascii) : bool := between 97 122 c.

(** Alphanumeric characters above the ASCII range: the letters, the
    superscript digits and the vulgar fractions of Latin-1. *)
Definition isalnum_latin1 (c : ascii) : bool :=
  (ord c =? 170) || between 178 179 c || (ord c =? 181) ||
  between 185 186 c || between 188 190 c ||
  between 192 214 c || between 216 246 c || between 248 255 c.

(** The category [\w]. *)
Definition isword (c : ascii) : bool :=
  isdecimal c || isupper_ascii c || islower_ascii c || (ord c =? 95) ||
  isalnum_latin1 c.

(** Simple case mapping.  Only ASCII letters are moved: the sets of
    the two row patterns hold ASCII characters only, and no other
    code point below 256 maps to an ASCII one. *)
Definition lower (c : ascii) : ascii :=
  if isupper_ascii c then ascii_of_N (N_of_ascii c + 32) else c.

Definition upper (c : ascii) : ascii :=
  if islower_ascii c then ascii_of_N (N_of_ascii c - 32) else c.

End Char.

(** ** The fragment of [re] the two row patterns are written in *)

Module Re.

(** One member of a bracketed set. *)
Inductive set_item : Type :=
| Chr (c : ascii)            (* a literal character *)
| Range (lo hi : ascii)      (* lo-hi *)
| Digit                      (* \d *)
| Word                       (* \w *)
| Space.                     (* \s *)

Definition charset : Type := list set_item.

(** One piece of a pattern.  Every repetition in the source applies
    to a single set, and every group wraps exactly one [set+]. *)
Inductive piece : Type :=
| Lit (c : ascii)            (* an escaped or plain literal *)
| Star (cs : charset)        (* set*   greedy *)
| Plus (cs : charset)        (* set+   greedy *)
| Group (cs : charset).      (* (set+) greedy, capturing *)

Definition pattern : Type := list piece.

Definition item_has (i : set_item) (c : ascii) : bool :=
  match i with
  | Chr x => Ascii.eqb x c
  | Range lo hi => Char.between (Char.ord lo) (Char.ord hi) c
  | Digit => Char.isdecimal c
  | Word => Char.isword c
  | Space => Char.isspace c
  end.

Definition set_has (cs : charset) (c : ascii) : bool :=
  existsb (fun i => item_has i c) cs.

(** Membership under the flags of the pattern; [ignorecase] is
    [re.IGNORECASE]. *)
Definition in_set (ignorecase : bool) (cs : charset) (c : ascii) : bool :=
  if ignorecase
  then set_has cs c || set_has cs (Char.lower c) || set_has cs (Char.upper c)
  else set_has cs c.

Definition is_lit (ignorecase : bool) (x c : ascii) : bool :=
  in_set ignorecase [Chr x] c.

(** Greedy repetition with backtracking: take as many characters of
    the set as there are, and give characters back one at a time while
    the rest of the pattern, the continuation [k], fails.  [k] gets
    the text taken so far and the text left. *)
Fixpoint many {R : Type} (ok : ascii → bool)
    (k : string → string → option R) (s : string) : option R :=
  match s with
  | String a s' =>
      if ok a then
        match many ok (fun g rest => k (String a g) rest) s' with
        | Some r => Some r
        | None => k EmptyString s
        end
      else k EmptyString s
  | EmptyString => k EmptyString s
  end.

Definition many1 {R : Type} (ok : ascii → bool)
    (k : string → string → option R) (s : string) : option R :=
  match s with
  | String a s' =>
      if ok a then many ok (fun g rest => k (String a g) rest) s' else None
  | EmptyString => None
  end.

(** [re.compile(p, flags).match(s)]: the match is anchored at the
    start of [s] only.  The result is the list of the groups, group 1
    first; [None] is Python's [None]. *)
Fixpoint re_match (ignorecase : bool) (p : pattern) (s : string)
    : option (list string) :=
  match p with
  | [] => Some []
  | Lit x :: p' =>
      match s with
      | String a s' =>
          if is_lit ignorecase x a then re_match ignorecase p' s' else None
      | EmptyString => None
      end
  | Star cs :: p' =>
      many (in_set ignorecase cs) (fun _ rest => re_match ignorecase p' rest) s
  | Plus cs :: p' =>
      many1 (in_set ignorecase cs) (fun _ rest => re_match ignorecase p' rest) s
  | Group cs :: p' =>
      many1 (in_set ignorecase cs)
            (fun g rest => cons g <$> re_match ignorecase p' rest) s
  end.

(** [match.group(n)] for [n >= 1]. *)
Definition group (m : list string) (n : nat) : string :=
  nth (Nat.pred n) m EmptyString.

End Re.

(** ** Built-in string operations *)

(** [needle in hay]. *)
Fixpoint contains (needle hay : string) : bool :=
  String.prefix needle hay ||
  match hay with
  | String _ t => contains needle t
  | EmptyString => false
  end.

(** [s.startswith(p)]. *)
Definition startswith (s p : string) : bool := String.prefix p s.

Fixpoint lstrip (s : string) : string :=
  match s with
  | String a t => if Char.isspace a then lstrip t else s
  | EmptyString => EmptyString
  end.

Definition rstrip (s : string) : string := String.rev (lstrip (String.rev s)).

(** [s.strip()]. *)
Definition strip (s : string) : string := rstrip (lstrip s).

(** ** [int(text, base)]

    The conversion is given on plain digit strings: a non-empty run of
    digits of the base, letters in either case.  On any other text the
    model answers [None], the [ValueError] of Python; the signs,
    underscores, surrounding blanks and base prefixes that [int] also
    reads cannot occur in a field matched by the row patterns.  A text
    longer than the limit is refused as well, unless the base is a
    power of two. *)

Definition digit_value (c : ascii) : option Z :=
  if Char.isdecimal c then Some (Char.ord c - 48)
  else if Char.islower_ascii c then Some (Char.ord c - 87)
  else if Char.isupper_ascii c then Some (Char.ord c - 55)
  else None.

Fixpoint int_digits (base acc : Z) (s : string) : option Z :=
  match s with
  | EmptyString => Some acc
  | String c s' =>
      match digit_value c with
      | Some d => if d <? base then int_digits base (acc * base + d) s' else None
      | None => None
      end
  end.

(** [sys.int_info.default_max_str_digits]: the default limit on the
    number of digits in a conversion between [int] and [str]. *)
Definition int_max_str_digits : nat := 4300.

(** The bases the limit does not apply to: the powers of two. *)
Definition binary_base (base : Z) : bool :=
  (base =? 2) || (base =? 4) || (base =? 8) || (base =? 16) || (base =? 32).

(** The limit counts every digit of the text, leading zeros too. *)
Definition exceeds_limit (s : string) (base : Z) : bool :=
  negb (binary_base base) && (int_max_str_digits <? String.length s)%nat.

Definition int (s : string) (base : Z) : option Z :=
  match s with
  | EmptyString => None
  | _ => if exceeds_limit s base then None else int_digits base 0 s
  end.

(** ** Records *)

(** The dict built for one section row (line 59). *)
Module Sec.
Record t : Type := mk
  { name : string; type : string; address : Z; offset : Z; size : Z }.
End Sec.

(** The dict built for one symbol row (line 96). *)
Module Sym.
Record t : Type := mk { address : Z; size : Z; name : string }.
End Sym.

(** The dict built for one changed name (lines 108, 110 and 114);
    [change] is one of the literals ["resize"], ["removed"], ["added"]. *)
Module Change.
Record t : Type := mk { old : Z; new : Z; diff : Z; change : string }.
End Change.

(** [_changes] reads nothing of a value but [v["size"]]. *)
Class HasSize (A : Type) : Type := size_of : A → Z.

#[export] Instance sec_has_size : HasSize Sec.t := Sec.size.

#[export] Instance sym_has_size : HasSize Sym.t := Sym.size.

#[export] Instance Z_has_size : HasSize Z := fun z => z.

(** ** [_parse_readelf_sections] *)

Definition hexdigits : Re.charset := [Re.Range "0" "9"; Re.Range "a" "f"].

Definition hexdigits' : Re.charset := [Re.Range "a" "f"; Re.Range "0" "9"].

(** [\s*\[([0-9 ]+)\]\s+([a-z_\.]+)\s+([a-z_]+)\s+([0-9a-f]+)\s+([a-f0-9]+)\s+([a-f0-9]+)] *)
Definition section_row : Re.pattern :=
  [ Re.Star [Re.Space];
    Re.Lit "[";
    Re.Group [Re.Range "0" "9"; Re.Chr " "];
    Re.Lit "]";
    Re.Plus [Re.Space];
    Re.Group [Re.Range "a" "z"; Re.Chr "_"; Re.Chr "."];
    Re.Plus [Re.Space];
    Re.Group [Re.Range "a" "z"; Re.Chr "_"];
    Re.Plus [Re.Space];
    Re.Group hexdigits;
    Re.Plus [Re.Space];
    Re.Group hexdigits';
    Re.Plus [Re.Space];
    Re.Group hexdigits' ].

(** The loop state: the flag [in_headers] and the dict [sections]. *)
Definition sections_state : Type := bool * gmap string Sec.t.

(** Line 59, for a row that matched. *)
Definition section_of_match (m : list string) : option Sec.t :=
  address ← int (Re.group m 4) 16;
  offset ← int (Re.group m 5) 16;
  size ← int (Re.group m 6) 16;
  Some (Sec.mk (Re.group m 2) (Re.group m 3) address offset size).

(** One turn of the loop of lines 48 to 61. *)
Definition sections_step (st : sections_state) (f : string)
    : option sections_state :=
  let '(in_headers, sections) := st in
  if negb in_headers then
    Some (contains "Section Headers:" f, sections)
  else
    let in_headers :=
      if String.eqb (strip f) EmptyString then false else in_headers in
    match Re.re_match true section_row f with
    | Some m =>
        new_section ← section_of_match m;
        Some (in_headers, <[Re.group m 2 := new_section]> sections)
    | None => Some (in_headers, sections)
    end.

Fixpoint sections_loop (st : sections_state) (readelf_lines : list string)
    : option sections_state :=
  match readelf_lines with
  | [] => Some st
  | f :: rest => st' ← sections_step st f; sections_loop st' rest
  end.

Definition _parse_readelf_sections (readelf_lines : list string)
    : option (gmap string Sec.t) :=
  snd <$> sections_loop (false, ∅) readelf_lines.

(** ** [_parse_readelf_symbols] *)

(** [\s+\d+:\s+([0-9a-f]+)\s+(\d+)\s+(\w+)\s+(\w+)\s+(\w+)\s+(\d+)\s+([\w\.]+)] *)
Definition symbol_row : Re.pattern :=
  [ Re.Plus [Re.Space];
    Re.Plus [Re.Digit];
    Re.Lit ":";
    Re.Plus [Re.Space];
    Re.Group hexdigits;
    Re.Plus [Re.Space];
    Re.Group [Re.Digit];
    Re.Plus [Re.Space];
    Re.Group [Re.Word];
    Re.Plus [Re.Space];
    Re.Group [Re.Word];
    Re.Plus [Re.Space];
    Re.Group [Re.Word];
    Re.Plus [Re.Space];
    Re.Group [Re.Digit];
    Re.Plus [Re.Space];
    Re.Group [Re.Word; Re.Chr "."] ].

(** The loop state: the flag [in_table] and the dict [symbols]. *)
Definition symbols_state : Type := bool * gmap string Sym.t.

(** Line 96, for a row that matched; [int] with one argument reads
    base 10, so a size of more than 4300 digits raises here. *)
Definition symbol_of_match (m : list string) : option Sym.t :=
  address ← int (Re.group m 1) 16;
  size ← int (Re.group m 2) 10;
  Some (Sym.mk address size (Re.group m 7)).

(** One turn of the loop of lines 89 to 97. *)
Definition symbols_step (st : symbols_state) (l : string)
    : option symbols_state :=
  let '(in_table, symbols) := st in
  if negb in_table then
    Some (startswith l "Symbol table ", symbols)
  else
    match Re.re_match true symbol_row l with
    | Some m =>
        s ← symbol_of_match m;
        Some (in_table, <[Re.group m 7 := s]> symbols)
    | None => Some (in_table, symbols)
    end.

Fixpoint symbols_loop (st : symbols_state) (readelf_lines : list string)
    : option symbols_state :=
  match readelf_lines with
  | [] => Some st
  | l :: rest => st' ← symbols_step st l; symbols_loop st' rest
  end.

Definition _parse_readelf_symbols (readelf_lines : list string)
    : option (gmap string Sym.t) :=
  snd <$> symbols_loop (false, ∅) readelf_lines.

(** ** [_changes]

    Each loop visits every key of its dict once and writes under that
    key only, so the order of the visits does not show in the result;
    [map_fold] visits the keys in the order of the map. *)

Section Changes.
Context {A : Type} `{HasSize A}.

(** The body of the first loop (lines 104 to 110). *)
Definition changes_old (new_map : gmap string A)
    (s : string) (old : A) (changes : gmap string Change.t)
    : gmap string Change.t :=
  match new_map !! s with
  | Some new =>
      if negb (size_of old =? size_of new) then
        <[s := Change.mk (size_of old) (size_of new)
                         (size_of new - size_of old) "resize"]> changes
      else changes
  | None =>
      <[s := Change.mk (size_of old) 0 (- size_of old) "removed"]> changes
  end.

(** The body of the second loop (lines 112 to 114). *)
Definition changes_new (old_map : gmap string A)
    (s : string) (new : A) (changes : gmap string Change.t)
    : gmap string Change.t :=
  match old_map !! s with
  | None => <[s := Change.mk 0 (size_of new) (size_of new) "added"]> changes
  | Some _ => changes
  end.

Definition _changes (old_map new_map : gmap string A) : gmap string Change.t :=
  let changes := ∅ in
  let changes := map_fold (changes_old new_map) changes old_map in
  let changes := map_fold (changes_new old_map) changes new_map in
  changes.

End Changes.

(** ** [_capture_readelf], [__init__] and the two change reports

    The tool is the only thing outside the program: [run_stdout argv]
    is the decoded standard output of [subprocess.run(argv,
    capture_output=True)], and [None] when starting the tool or
    decoding its output raises.  The exit status of the tool is not
    looked at (line 27). *)

(** [s.split(sep)] for a separator of one character. *)
Fixpoint split (sep : ascii) (s : string) : list string :=
  match s with
  | EmptyString => [EmptyString]
  | String c t =>
      if Ascii.eqb c sep then EmptyString :: split sep t
      else match split sep t with
           | h :: r => String c h :: r
           | [] => [String c EmptyString]
           end
  end.

(** The line feed. *)
Definition newline : ascii := "010"%char.

(** The attributes [__init__] sets. *)
Record ElfChanges : Type := mkElfChanges
  { compiler_prefix : string;
    _old_sections : gmap string Sec.t;
    _new_sections : gmap string Sec.t;
    _old_symbols : gmap string Sym.t;
    _new_symbols : gmap string Sym.t }.

Section Tool.
Variable run_stdout : list string → option string.

(** Lines 25 to 29. *)
Definition _capture_readelf (prefix elffile : string) : option (list string) :=
  stdout ← run_stdout [prefix +:+ "readelf"; "-a"; elffile];
  Some (split newline stdout).

(** Lines 10 to 23. *)
Definition __init__ (old_elf new_elf prefix : string) : option ElfChanges :=
  old ← _capture_readelf prefix old_elf;
  new ← _capture_readelf prefix new_elf;
  old_sections ← _parse_readelf_sections old;
  new_sections ← _parse_readelf_sections new;
  old_symbols ← _parse_readelf_symbols old;
  new_symbols ← _parse_readelf_symbols new;
  Some (mkElfChanges prefix old_sections new_sections old_symbols new_symbols).

End Tool.

(** Lines 117 to 119. *)
Definition symbol_changes (self : ElfChanges) : gmap string Change.t :=
  _changes (_old_symbols self) (_new_symbols self).

(** Lines 121 to 123. *)
Definition section_changes (self : ElfChanges) : gmap string Change.t :=
  _changes (_old_sections self) (_new_sections self).

(** ** [output_text_table] and [output_html_table] *)

(** What a cell of a table holds: an [int] or a [str]. *)
Inductive value : Type :=
| VInt (z : Z)
| VStr (s : string).

(** The text of a value: the decimal text of an [int], a [str] as it
    is.  It is what [str(v)] and ["{}".format(v)] give when they
    return. *)
Definition str (v : value) : string :=
  match v with
  | VInt z => NilZero.string_of_int (Z.to_int z)
  | VStr s => s
  end.

(** The number of decimal digits of an [int]; the sign is not one. *)
Definition decimal_digits (z : Z) : nat :=
  String.length (NilZero.string_of_uint (N.to_uint (Z.abs_N z))).

(** Printing an [int] of more than [int_max_str_digits] decimal
    digits raises [ValueError]; a [str] is always printed. *)
Definition printable (v : value) : bool :=
  match v with
  | VInt z => (decimal_digits z <=? int_max_str_digits)%nat
  | VStr _ => true
  end.

(** ["{}".format(v)]; [None] is the [ValueError]. *)
Definition format_plain (v : value) : option string :=
  if printable v then Some (str v) else None.

Fixpoint spaces (n : nat) : string :=
  match n with
  | O => EmptyString
  | S n' => String " " (spaces n')
  end.

(** [s.ljust(width)] and [s.rjust(width)]: nothing is cut off. *)
Definition ljust (width : nat) (s : string) : string :=
  s +:+ spaces (width - String.length s).

Definition rjust (width : nat) (s : string) : string :=
  spaces (width - String.length s) +:+ s.

(** ["%-30s" % s] and ["%-10s" % s]. *)
Definition percent_minus_s (width : nat) (s : string) : string := ljust width s.

(** The text of ["{:10}".format(v)]: a number to the right, a text to
    the left. *)
Definition pad_10 (v : value) : string :=
  match v with
  | VInt _ => rjust 10 (str v)
  | VStr s => ljust 10 s
  end.

(** ["{:10}".format(v)]; [None] is the [ValueError]. *)
Definition format_10 (v : value) : option string :=
  if printable v then Some (pad_10 v) else None.

(** [s * n]. *)
Fixpoint repeat_string (s : string) (n : nat) : string :=
  match n with
  | O => EmptyString
  | S n' => s +:+ repeat_string s n'
  end.

(** [d[k]] on the dict of a row; [None] is the [KeyError]. *)
Class Subscript (D : Type) : Type := getitem : D → string → option value.

(** The dict of lines 108, 110 and 114. *)
#[export] Instance change_subscript : Subscript Change.t := fun c k =>
  if String.eqb k "old" then Some (VInt (Change.old c))
  else if String.eqb k "new" then Some (VInt (Change.new c))
  else if String.eqb k "diff" then Some (VInt (Change.diff c))
  else if String.eqb k "change" then Some (VStr (Change.change c))
  else None.

(** Writing to [output]: a computation takes the text written so far
    and gives the text written after it, with its result or [None] when
    it raised.  What was written before an exception stays written. *)
Definition io (A : Type) : Type := string → option A * string.

#[export] Instance io_ret : MRet io := fun A x out => (Some x, out).

#[export] Instance io_bind : MBind io := fun A B f m out =>
  match m out with
  | (Some x, out') => f x out'
  | (None, out') => (None, out')
  end.

(** [output.write(s)]. *)
Definition write (s : string) : io unit := fun out => (Some (), out +:+ s).

(** A call that may raise: nothing is written by it. *)
Definition raising {A : Type} (o : option A) : io A := fun out => (o, out).

(** A failed subscript raises. *)
Definition subscript {D : Type} `{Subscript D} (d : D) (k : string) : io value :=
  raising (getitem d k).

(** [for x in xs: body]. *)
Fixpoint for_each {A : Type} (xs : list A) (body : A → io unit) : io unit :=
  match xs with
  | [] => mret ()
  | x :: rest => body x ;; for_each rest body
  end.

(** The double quote. *)
Definition dquote : string := String "034"%char EmptyString.

Section Tables.
Context {D : Type} `{Subscript D}.

(** Lines 125 to 139.  [map_table] is the dict as it is iterated: its
    items in order, the keys distinct, so that [map_table[m]] is the
    value met with [m]. *)
Definition output_text_table (title : string) (map_table : list (string * D))
    (keys : list string) : io unit :=
  write (title +:+ String newline EmptyString) ;;
  write (percent_minus_s 30 "name") ;;
  for_each keys (fun k => write (" | " +:+ percent_minus_s 10 k)) ;;
  write (String newline EmptyString) ;;
  write (repeat_string "------------" (length keys + 3)) ;;
  write (String newline EmptyString) ;;
  for_each map_table (fun '(m, d) =>
    write (percent_minus_s 30 m) ;;
    for_each keys (fun k =>
      v ← subscript d k;
      cell ← raising (format_10 v);
      write (" | " +:+ cell)) ;;
    write (String newline EmptyString)) ;;
  write (String newline (String newline EmptyString)).

(** Lines 141 to 155. *)
Definition output_html_table (title : string) (map_table : list (string * D))
    (keys : list string) : io unit :=
  write ("<h2>" +:+ title +:+ "</h2>" +:+ String newline EmptyString) ;;
  write ("<table class=" +:+ dquote +:+ "sortable" +:+ dquote +:+ ">"
         +:+ String newline EmptyString) ;;
  write ("<tr>" +:+ String newline EmptyString) ;;
  write ("<th>name</th>" +:+ String newline EmptyString) ;;
  for_each keys (fun k =>
    write ("<th>" +:+ k +:+ "</th>" +:+ String newline EmptyString)) ;;
  write ("</tr>" +:+ String newline EmptyString) ;;
  for_each map_table (fun '(m, d) =>
    write "<tr>" ;;
    write ("<td>" +:+ m +:+ "</td>") ;;
    for_each keys (fun k =>
      v ← subscript d k;
      cell ← raising (format_plain v);
      write ("<td>" +:+ cell +:+ "</td>")) ;;
    write ("</tr>" +:+ String newline EmptyString)) ;;
  write ("</table>" +:+ String newline EmptyString).

End Tables.

(** * Definitions for the statements *)

(** ** Texts and fields *)

Fixpoint all_in (ok : ascii → bool) (s : string) : bool :=
  match s with
  | EmptyString => true
  | String a t => ok a && all_in ok t
  end.

(** Does the text begin with a character of the class? *)
Definition head_in (ok : ascii → bool) (s : string) : bool :=
  match s with
  | EmptyString => false
  | String a _ => ok a
  end.

(** A field: a non-empty run of characters of one class. *)
Definition field (ok : ascii → bool) (t : string) : Prop :=
  t ≠ EmptyString ∧ all_in ok t = true.

(** ** A declarative reading of a pattern *)

Module ReShape.
Import Re.

(** [matches ic p s g r]: [s] is a text for [p] followed by [r], and
    [g] lists the texts of the groups. *)
Inductive matches (ic : bool) : pattern → string → list string → string → Prop :=
| M_nil r : matches ic [] r [] r
| M_lit x a p s g r :
    is_lit ic x a = true → matches ic p s g r →
    matches ic (Lit x :: p) (String a s) g r
| M_star cs p t s g r :
    all_in (in_set ic cs) t = true → matches ic p s g r →
    matches ic (Star cs :: p) (t +:+ s) g r
| M_plus cs p t s g r :
    field (in_set ic cs) t → matches ic p s g r →
    matches ic (Plus cs :: p) (t +:+ s) g r
| M_group cs p t s g r :
    field (in_set ic cs) t → matches ic p s g r →
    matches ic (Group cs :: p) (t +:+ s) (t :: g) r.

(** [tight ic p s g]: as [matches], and no run can be made longer. *)
Inductive tight (ic : bool) : pattern → string → list string → Prop :=
| T_nil r : tight ic [] r []
| T_lit x a p s g :
    is_lit ic x a = true → tight ic p s g →
    tight ic (Lit x :: p) (String a s) g
| T_star cs p t s g :
    all_in (in_set ic cs) t = true → head_in (in_set ic cs) s = false →
    tight ic p s g → tight ic (Star cs :: p) (t +:+ s) g
| T_plus cs p t s g :
    field (in_set ic cs) t → head_in (in_set ic cs) s = false →
    tight ic p s g → tight ic (Plus cs :: p) (t +:+ s) g
| T_group cs p t s g :
    field (in_set ic cs) t → head_in (in_set ic cs) s = false →
    tight ic p s g → tight ic (Group cs :: p) (t +:+ s) (t :: g).

(** The sets of the groups of a pattern, in order. *)
Fixpoint group_sets (p : pattern) : list charset :=
  match p with
  | [] => []
  | Group cs :: p' => cs :: group_sets p'
  | _ :: p' => group_sets p'
  end.

End ReShape.

(** ** Numbers *)

(** The positional value of a digit string: the sum of
    [digit * base ^ position], positions counted from the right. *)
Fixpoint positional_value (base : Z) (s : string) : Z :=
  match s with
  | EmptyString => 0
  | String c t =>
      default 0 (digit_value c) * base ^ Z.of_nat (String.length t)
      + positional_value base t
  end.

Definition digit_below (base : Z) (c : ascii) : bool :=
  match digit_value c with
  | Some d => (0 <=? d) && (d <? base)
  | None => false
  end.

(** ** Character classes and the shape of a section row *)

Definition index_chars : Re.charset := [Re.Range "0" "9"; Re.Chr " "].

Definition name_chars : Re.charset := [Re.Range "a" "z"; Re.Chr "_"; Re.Chr "."].

Definition type_chars : Re.charset := [Re.Range "a" "z"; Re.Chr "_"].

Definition symbol_name_chars : Re.charset := [Re.Word; Re.Chr "."].

Definition is_letter (c : ascii) : bool :=
  Char.isupper_ascii c || Char.islower_ascii c.

Definition is_hex_digit (c : ascii) : bool :=
  Char.isdecimal c || Char.between 97 102 c || Char.between 65 70 c.

(** An index character: a digit or a space. *)
Definition is_index_char (c : ascii) : bool :=
  Char.isdecimal c || Ascii.eqb c " ".

(** A type tag character: a letter or an underscore. *)
Definition is_type_char (c : ascii) : bool :=
  is_letter c || Ascii.eqb c "_".

(** A name character as the pattern has it: a letter, an underscore or
    a dot. *)
Definition is_section_name_char (c : ascii) : bool :=
  is_letter c || Ascii.eqb c "_" || Ascii.eqb c ".".

(** A name character as the specification words it: a letter, a digit,
    an underscore or a dot. *)
Definition is_identifier_like_char (c : ascii) : bool :=
  is_letter c || Char.isdecimal c || Ascii.eqb c "_" || Ascii.eqb c ".".

(** The fixed row shape, for a given class of name characters: blanks,
    the index in brackets, then the name, the type tag and the three
    hexadecimal fields, each after blanks; [rest] is what trails. *)
Definition section_row_shape (name_ok : ascii → bool)
    (f idx name ty addr off sz rest : string) : Prop :=
  ∃ ws0 ws1 ws2 ws3 ws4 ws5 : string,
    f = ws0 +:+ "[" +:+ idx +:+ "]" +:+ ws1 +:+ name +:+ ws2 +:+ ty +:+
        ws3 +:+ addr +:+ ws4 +:+ off +:+ ws5 +:+ sz +:+ rest ∧
    all_in Char.isspace ws0 = true ∧
    field is_index_char idx ∧
    field Char.isspace ws1 ∧ field name_ok name ∧
    field Char.isspace ws2 ∧ field is_type_char ty ∧
    field Char.isspace ws3 ∧ field is_hex_digit addr ∧
    field Char.isspace ws4 ∧ field is_hex_digit off ∧
    field Char.isspace ws5 ∧ field is_hex_digit sz.

(** ** Rows and records *)

(** The record line 59 builds from the groups of a matched row, the
    numbers written as positional values. *)
Definition section_of_groups (m : list string) : Sec.t :=
  Sec.mk (Re.group m 2) (Re.group m 3)
         (positional_value 16 (Re.group m 4))
         (positional_value 16 (Re.group m 5))
         (positional_value 16 (Re.group m 6)).

(** The same for line 96. *)
Definition symbol_of_groups (m : list string) : Sym.t :=
  Sym.mk (positional_value 16 (Re.group m 1))
         (positional_value 10 (Re.group m 2))
         (Re.group m 7).

(** What one line tested as a row does to the dict. *)
Definition add_section (secs : gmap string Sec.t) (f : string)
    : gmap string Sec.t :=
  match Re.re_match true section_row f with
  | Some m => <[Re.group m 2 := section_of_groups m]> secs
  | None => secs
  end.

Definition add_symbol (syms : gmap string Sym.t) (l : string)
    : gmap string Sym.t :=
  match Re.re_match true symbol_row l with
  | Some m => <[Re.group m 7 := symbol_of_groups m]> syms
  | None => syms
  end.

(** The record of a line tested as a symbol row, if it matches. *)
Definition symbol_row_record (l : string) : option Sym.t :=
  symbol_of_groups <$> Re.re_match true symbol_row l.

(** The records of the rows a pass matches, in input order. *)
Fixpoint section_rows (in_headers : bool) (readelf_lines : list string)
    : list Sec.t :=
  match readelf_lines with
  | [] => []
  | f :: rest =>
      if in_headers then
        match Re.re_match true section_row f with
        | Some m => section_of_groups m :: section_rows true rest
        | None => section_rows (negb (all_in Char.isspace f)) rest
        end
      else section_rows (contains "Section Headers:" f) rest
  end.

Fixpoint symbol_rows (in_table : bool) (readelf_lines : list string)
    : list Sym.t :=
  match readelf_lines with
  | [] => []
  | l :: rest =>
      if in_table then
        match Re.re_match true symbol_row l with
        | Some m => symbol_of_groups m :: symbol_rows true rest
        | None => symbol_rows true rest
        end
      else symbol_rows (startswith l "Symbol table ") rest
  end.

(** Whether line 96 can read the size of a line tested as a symbol
    row: a line that matches with a size field of more digits than the
    limit makes [int] raise, any other line is passed or recorded. *)
Definition size_readable (l : string) : bool :=
  match Re.re_match true symbol_row l with
  | Some m => (String.length (Re.group m 2) <=? int_max_str_digits)%nat
  | None => true
  end.

(** Whether the size of every line the symbol pass tests as a row can
    be read. *)
Fixpoint sizes_readable (in_table : bool) (readelf_lines : list string)
    : bool :=
  match readelf_lines with
  | [] => true
  | l :: rest =>
      if in_table then size_readable l && sizes_readable true rest
      else sizes_readable (startswith l "Symbol table ") rest
  end.

(** A symbol row whose size field has one digit more than the limit. *)
Definition long_size_row : string :=
  "     1: 00000000 " +:+ repeat_string "1" (S int_max_str_digits) +:+
  " FUNC GLOBAL DEFAULT 1 big".

(** The last record of a list that bears a given name. *)
Definition last_section (k : string) (rows : list Sec.t) : option Sec.t :=
  last (filter (λ r, Sec.name r = k) rows).

Definition last_symbol (k : string) (rows : list Sym.t) : option Sym.t :=
  last (filter (λ r, Sym.name r = k) rows).

(** ** Change records *)

Section ChangeOf.
Context {A : Type} `{HasSize A}.

(** What the first loop of [_changes] leaves for a name. *)
Definition resized_or_removed (o n : option A) : option Change.t :=
  match o, n with
  | Some old, Some new =>
      if size_of old =? size_of new then None
      else Some (Change.mk (size_of old) (size_of new)
                           (size_of new - size_of old) "resize")
  | Some old, None =>
      Some (Change.mk (size_of old) 0 (- size_of old) "removed")
  | None, _ => None
  end.

(** The record [_changes] holds for a name, from what the two maps
    hold for it. *)
Definition change_of (o n : option A) : option Change.t :=
  match o, n with
  | Some old, Some new =>
      if size_of old =? size_of new then None
      else Some (Change.mk (size_of old) (size_of new)
                           (size_of new - size_of old) "resize")
  | Some old, None =>
      Some (Change.mk (size_of old) 0 (- size_of old) "removed")
  | None, Some new =>
      Some (Change.mk 0 (size_of new) (size_of new) "added")
  | None, None => None
  end.

End ChangeOf.

(** ** Proof steps *)

(** A fact on every character, settled on each of the 256. *)
Ltac by_cases_on_char :=
  intros [[] [] [] [] [] [] [] []]; vm_compute;
  intros ?; first [reflexivity | discriminate].

Ltac by_char_table := intros [[] [] [] [] [] [] [] []]; reflexivity.

Ltac invert_matches :=
  repeat match goal with
         | H : ReShape.matches _ (_ :: _) _ _ _ |- _ =>
             inversion H; subst; clear H
         | H : ReShape.matches _ [] _ _ _ |- _ =>
             inversion H; subst; clear H
         end.

Ltac invert_groups :=
  repeat match goal with
         | H : Forall2 _ (_ :: _) _ |- _ =>
             apply Forall2_cons_inv_l in H as (? & ? & ? & H & ->)
         | H : Forall2 _ [] _ |- _ => apply Forall2_nil_inv_l in H as ->
         end.

(** ** Definitions for the further properties *)

(** The record of a name read the other way round: the sizes swapped,
    the difference negated, ["added"] and ["removed"] exchanged. *)
Definition mirror (c : Change.t) : Change.t :=
  Change.mk (Change.new c) (Change.old c) (- Change.diff c)
    (if String.eqb (Change.change c) "added" then "removed"
     else if String.eqb (Change.change c) "removed" then "added"
     else Change.change c).

(** The record of line 114 and the record of line 110. *)
Definition added_record {A : Type} `{HasSize A} (new : A) : Change.t :=
  Change.mk 0 (size_of new) (size_of new) "added".

Definition removed_record {A : Type} `{HasSize A} (old : A) : Change.t :=
  Change.mk (size_of old) 0 (- size_of old) "removed".

(** [sep.join(lines)] for a separator of one character. *)
Fixpoint join (sep : ascii) (lines : list string) : string :=
  match lines with
  | [] => EmptyString
  | [l] => l
  | l :: rest => l +:+ String sep (join sep rest)
  end.

Definition is_not (sep : ascii) (c : ascii) : bool := negb (Ascii.eqb c sep).

(** A symbol name character: a word character or a dot. *)
Definition is_symbol_name_char (c : ascii) : bool :=
  Char.isword c || Ascii.eqb c ".".

(** The fields of a symbol row up to the section index: blanks, the
    row number and a colon, then the address, the size, three words and
    the section index, each after blanks; [tail] is what follows the
    section index, whose characters are of the class [ndx_ok]. *)
Definition symbol_row_fields (ndx_ok : ascii → bool)
    (l num addr sz ty bind vis ndx tail : string) : Prop :=
  ∃ ws0 ws1 ws2 ws3 ws4 ws5 ws6 : string,
    l = ws0 +:+ num +:+ ":" +:+ ws1 +:+ addr +:+ ws2 +:+ sz +:+ ws3 +:+ ty +:+
        ws4 +:+ bind +:+ ws5 +:+ vis +:+ ws6 +:+ ndx +:+ tail ∧
    field Char.isspace ws0 ∧ field Char.isdecimal num ∧
    field Char.isspace ws1 ∧ field is_hex_digit addr ∧
    field Char.isspace ws2 ∧ field Char.isdecimal sz ∧
    field Char.isspace ws3 ∧ field Char.isword ty ∧
    field Char.isspace ws4 ∧ field Char.isword bind ∧
    field Char.isspace ws5 ∧ field Char.isword vis ∧
    field Char.isspace ws6 ∧ field ndx_ok ndx.

(** The shape of a symbol row: the fields with a decimal section index,
    then blanks and the name; [rest] is what trails. *)
Definition symbol_row_shape
    (l num addr sz ty bind vis ndx name rest : string) : Prop :=
  ∃ ws7 : string,
    symbol_row_fields Char.isdecimal l num addr sz ty bind vis ndx
                      (ws7 +:+ name +:+ rest) ∧
    field Char.isspace ws7 ∧ field is_symbol_name_char name.

(** ** Patterns whose matches are determined *)

Module ReSep.
Import Re.

(** What can follow a run of [cs] lies outside [cs]. *)
Definition follows_outside (ic : bool) (cs : charset) (p : pattern) : Prop :=
  match p with
  | [] => True
  | Lit x :: _ => ∀ c, is_lit ic x c = true → in_set ic cs c = false
  | Plus cs' :: _ | Group cs' :: _ =>
      ∀ c, in_set ic cs' c = true → in_set ic cs c = false
  | Star _ :: _ => False
  end.

(** Every repetition of the pattern is followed by something that
    begins outside its set. *)
Fixpoint separated (ic : bool) (p : pattern) : Prop :=
  match p with
  | [] => True
  | Lit _ :: p' => separated ic p'
  | Star cs :: p' | Plus cs :: p' | Group cs :: p' =>
      follows_outside ic cs p' ∧ separated ic p'
  end.

(** The text left after the pattern begins outside the set of the last
    piece, when that piece is a repetition. *)
Fixpoint end_ok (ic : bool) (p : pattern) (r : string) : Prop :=
  match p with
  | [] => True
  | [Star cs] | [Plus cs] | [Group cs] => head_in (in_set ic cs) r = false
  | _ :: p' => end_ok ic p' r
  end.

(** One piece is as the other, with a set that holds no more. *)
Definition piece_le (ic : bool) (a b : piece) : Prop :=
  match a, b with
  | Lit x, Lit y => x = y
  | Star cs, Star cs' | Plus cs, Plus cs' | Group cs, Group cs' =>
      ∀ c, in_set ic cs c = true → in_set ic cs' c = true
  | _, _ => False
  end.

End ReSep.

(** The first fifteen pieces of [symbol_row], through the section
    index, and the two that remain. *)
Definition symbol_row_fields_part : Re.pattern := take 15 symbol_row.

Definition symbol_row_name_part : Re.pattern := drop 15 symbol_row.

(** The same fifteen pieces with any word as section index. *)
Definition symbol_row_any_index : Re.pattern :=
  take 14 symbol_row ++ [Re.Group [Re.Word]].

(** The first six pieces of [section_row], through the name, and the
    same with a name of word characters and dots. *)
Definition section_row_name_part : Re.pattern := take 6 section_row.

Definition section_row_any_name : Re.pattern :=
  take 5 section_row ++ [Re.Group [Re.Word; Re.Chr "."]].

(** ** Tables *)

(** The lines of a text, each closed by a line feed. *)
Fixpoint lines_text (lines : list string) : string :=
  match lines with
  | [] => EmptyString
  | l :: rest => l +:+ String newline (lines_text rest)
  end.

(** The keys [main] passes to both writers (lines 167 and 201). *)
Definition report_keys : list string := ["old"; "new"; "diff"; "change"].

(** A cell that can be written: the row has the key, and its value can
    be printed. *)
Definition cell_writable {D : Type} `{Subscript D} (d : D) (k : string) : Prop :=
  ∃ v, getitem d k = Some v ∧ printable v = true.

(** A change record whose three numbers can be printed. *)
Definition change_printable (c : Change.t) : bool :=
  printable (VInt (Change.old c)) && printable (VInt (Change.new c)) &&
  printable (VInt (Change.diff c)).

(** A character that is neither white space nor a decimal digit. *)
Definition is_plain_char (c : ascii) : bool :=
  negb (Char.isspace c) && negb (Char.isdecimal c).

(** * Properties *)

(** ** Texts *)

Lemma app_cons a s t : String a s +:+ t = String a (s +:+ t).
Proof. reflexivity. Qed.

Lemma app_empty_l t : EmptyString +:+ t = t.
Proof. reflexivity. Qed.

Lemma app_assoc_string s t u : (s +:+ t) +:+ u = s +:+ t +:+ u.
Proof.
  induction s as [|a s IH]; [done|]. by rewrite !app_cons, IH.
Qed.

Lemma all_in_app ok s t : all_in ok (s +:+ t) = all_in ok s && all_in ok t.
Proof.
  induction s as [|a s IH]; [done|].
  rewrite app_cons. simpl. by rewrite IH, andb_assoc.
Qed.

Lemma all_in_impl (ok ok' : ascii → bool) s :
  (∀ c, ok c = true → ok' c = true) →
  all_in ok s = true → all_in ok' s = true.
Proof.
  intros Himp. induction s as [|c s IH]; simpl; [done|].
  intros [Hc Hs]%andb_prop. by rewrite (Himp _ Hc), IH.
Qed.

Lemma all_in_ext (ok ok' : ascii → bool) s :
  (∀ c, ok c = ok' c) → all_in ok s = all_in ok' s.
Proof.
  intros He. induction s as [|c s IH]; simpl; [done|]. by rewrite He, IH.
Qed.

Lemma field_ext (ok ok' : ascii → bool) t :
  (∀ c, ok c = ok' c) → field ok t ↔ field ok' t.
Proof. intros He. unfold field. by rewrite (all_in_ext ok ok' t He). Qed.

Lemma head_in_ext (ok ok' : ascii → bool) s :
  (∀ c, ok c = ok' c) → head_in ok s = head_in ok' s.
Proof. intros He. destruct s; simpl; [done|apply He]. Qed.

(** What follows a field of one class begins outside any class that is
    disjoint from it. *)
Lemma head_in_field ok ok' t r :
  (∀ c, ok' c = true → ok c = false) →
  field ok' t → head_in ok (t +:+ r) = false.
Proof.
  intros Hdis [Hne Hall]. destruct t as [|a t]; [done|].
  rewrite app_cons. simpl in *. apply Hdis.
  by apply andb_prop in Hall as [? _].
Qed.

(** Every text splits into its longest run of a class and the rest. *)
Lemma longest_run ok s :
  ∃ t r, s = t +:+ r ∧ all_in ok t = true ∧ head_in ok r = false.
Proof.
  induction s as [|a s (t & r & -> & Ht & Hr)].
  - by exists EmptyString, EmptyString.
  - destruct (ok a) eqn:Ha.
    + exists (String a t), r. simpl. by rewrite Ha, Ht.
    + exists EmptyString, (String a (t +:+ r)). done.
Qed.

(** ** The matcher against the declarative reading *)

Module ReFacts.
Import Re ReShape.

Lemma many_sound {R} ok (k : string → string → option R) s v :
  many ok k s = Some v →
  ∃ t r, s = t +:+ r ∧ all_in ok t = true ∧ k t r = Some v.
Proof.
  revert k. induction s as [|a s IH]; intros k Hm; simpl in Hm.
  - exists EmptyString, EmptyString. done.
  - destruct (ok a) eqn:Hok.
    + destruct (many ok (λ g rest, k (String a g) rest) s) as [w|] eqn:Hdeep.
      * simplify_eq.
        destruct (IH _ Hdeep) as (t & r & -> & Hall & Hk).
        exists (String a t), r. simpl. by rewrite Hok, Hall.
      * exists EmptyString, (String a s). done.
    + exists EmptyString, (String a s). done.
Qed.

Lemma many1_sound {R} ok (k : string → string → option R) s v :
  many1 ok k s = Some v →
  ∃ t r, s = t +:+ r ∧ field ok t ∧ k t r = Some v.
Proof.
  destruct s as [|a s]; simpl; [done|].
  destruct (ok a) eqn:Hok; [|done].
  intros (t & r & -> & Hall & Hk)%many_sound.
  exists (String a t), r. repeat split; [done| |done].
  simpl. by rewrite Hok, Hall.
Qed.

Lemma many_complete {R} ok (k : string → string → option R) t r :
  all_in ok t = true → is_Some (k t r) → is_Some (many ok k (t +:+ r)).
Proof.
  revert k. induction t as [|a t IH]; intros k Hall Hk.
  - rewrite app_empty_l. destruct r as [|b r]; simpl; [done|].
    destruct (ok b); [|done].
    by destruct (many ok _ r).
  - rewrite app_cons. simpl in *.
    apply andb_prop in Hall as [-> Hall].
    destruct (IH (λ g rest, k (String a g) rest) Hall Hk) as [w ->]. done.
Qed.

Lemma many1_complete {R} ok (k : string → string → option R) t r :
  field ok t → is_Some (k t r) → is_Some (many1 ok k (t +:+ r)).
Proof.
  intros [Hne Hall] Hk. destruct t as [|a t]; [done|].
  rewrite app_cons. simpl in *. apply andb_prop in Hall as [-> Hall].
  by apply (many_complete ok (λ g rest, k (String a g) rest)).
Qed.

(** When the run cannot be made longer and the rest of the pattern
    takes what follows it, no character is given back. *)
Lemma many_exact {R} ok (k : string → string → option R) t r v :
  all_in ok t = true → head_in ok r = false → k t r = Some v →
  many ok k (t +:+ r) = Some v.
Proof.
  revert k. induction t as [|a t IH]; intros k Hall Hhead Hk.
  - rewrite app_empty_l. destruct r as [|b r]; simpl in *; [done|].
    by rewrite Hhead.
  - rewrite app_cons. simpl in *.
    apply andb_prop in Hall as [-> Hall].
    by rewrite (IH (λ g rest, k (String a g) rest) Hall Hhead Hk).
Qed.

Lemma many1_exact {R} ok (k : string → string → option R) t r v :
  field ok t → head_in ok r = false → k t r = Some v →
  many1 ok k (t +:+ r) = Some v.
Proof.
  intros [Hne Hall] Hhead Hk. destruct t as [|a t]; [done|].
  rewrite app_cons. simpl in *. apply andb_prop in Hall as [-> Hall].
  by apply (many_exact ok (λ g rest, k (String a g) rest)).
Qed.

Lemma re_match_sound ic p s g :
  re_match ic p s = Some g → ∃ r, matches ic p s g r.
Proof.
  revert s g. induction p as [|[x|cs|cs|cs] p IH]; intros s g Hm; simpl in Hm.
  - simplify_eq. exists s. constructor.
  - destruct s as [|a s]; [done|].
    destruct (is_lit ic x a) eqn:Hl; [|done].
    apply IH in Hm as [r Hr]. exists r. by constructor.
  - apply many_sound in Hm as (t & s' & -> & Hall & Hk).
    apply IH in Hk as [r Hr]. exists r. by constructor.
  - apply many1_sound in Hm as (t & s' & -> & Hf & Hk).
    apply IH in Hk as [r Hr]. exists r. by constructor.
  - apply many1_sound in Hm as (t & s' & -> & Hf & Hk).
    destruct (re_match ic p s') as [g'|] eqn:Hg'; simplify_eq/=.
    apply IH in Hg' as [r Hr]. exists r. by constructor.
Qed.

Lemma re_match_complete ic p s g r :
  matches ic p s g r → is_Some (re_match ic p s).
Proof.
  induction 1 as [r|x a p s g r Hl _ IH|cs p t s g r Hall _ IH
                 |cs p t s g r Hf _ IH|cs p t s g r Hf _ IH]; simpl.
  - done.
  - by rewrite Hl.
  - by apply (many_complete _ (λ _ rest, re_match ic p rest)).
  - by apply (many1_complete _ (λ _ rest, re_match ic p rest)).
  - apply (many1_complete _ (λ g rest, cons g <$> re_match ic p rest)); [done|].
    destruct IH as [g' ->]. done.
Qed.

Lemma re_match_tight ic p s g :
  tight ic p s g → re_match ic p s = Some g.
Proof.
  induction 1 as [r|x a p s g Hl _ IH|cs p t s g Hall Hh _ IH
                 |cs p t s g Hf Hh _ IH|cs p t s g Hf Hh _ IH]; simpl.
  - done.
  - by rewrite Hl.
  - by apply (many_exact _ (λ _ rest, re_match ic p rest)).
  - by apply (many1_exact _ (λ _ rest, re_match ic p rest)).
  - apply (many1_exact _ (λ g rest, cons g <$> re_match ic p rest)); [done..|].
    by rewrite IH.
Qed.

Lemma matches_groups ic p s g r :
  matches ic p s g r →
  Forall2 (λ cs t, field (in_set ic cs) t) (group_sets p) g.
Proof. induction 1; simpl; auto. Qed.

Lemma re_match_groups ic p s g :
  re_match ic p s = Some g →
  Forall2 (λ cs t, field (in_set ic cs) t) (group_sets p) g.
Proof. intros [r Hr]%re_match_sound. by eapply matches_groups. Qed.

End ReFacts.

(** ** Characters of the sets *)

Lemma hexdigits_digit c :
  Re.in_set true hexdigits c = true → digit_below 16 c = true.
Proof. revert c. by_cases_on_char. Qed.

Lemma hexdigits'_digit c :
  Re.in_set true hexdigits' c = true → digit_below 16 c = true.
Proof. revert c. by_cases_on_char. Qed.

Lemma decimal_digit c :
  Re.in_set true [Re.Digit] c = true → digit_below 10 c = true.
Proof. revert c. by_cases_on_char. Qed.

Lemma bracket_not_space c :
  Re.is_lit true "[" c = true → Char.isspace c = false.
Proof. revert c. by_cases_on_char. Qed.

Lemma lit_open c : Re.is_lit true "[" c = true → c = "["%char.
Proof. revert c. by_cases_on_char. Qed.

Lemma lit_close c : Re.is_lit true "]" c = true → c = "]"%char.
Proof. revert c. by_cases_on_char. Qed.

Lemma space_set c : Re.in_set true [Re.Space] c = Char.isspace c.
Proof. revert c. by_char_table. Qed.

Lemma index_set c : Re.in_set true index_chars c = is_index_char c.
Proof. revert c. by_char_table. Qed.

Lemma name_set c : Re.in_set true name_chars c = is_section_name_char c.
Proof. revert c. by_char_table. Qed.

Lemma type_set c : Re.in_set true type_chars c = is_type_char c.
Proof. revert c. by_char_table. Qed.

(** The sets of the name and of the type of a section row hold neither
    white space nor digits. *)
Lemma name_plain c : Re.in_set true name_chars c = true → is_plain_char c = true.
Proof. revert c. by_cases_on_char. Qed.

Lemma type_plain c : Re.in_set true type_chars c = true → is_plain_char c = true.
Proof. revert c. by_cases_on_char. Qed.

Lemma section_name_no_digit c :
  is_section_name_char c = true → negb (Char.isdecimal c) = true.
Proof. revert c. by_cases_on_char. Qed.

Lemma field_mono (ok ok' : ascii → bool) t :
  (∀ c, ok c = true → ok' c = true) → field ok t → field ok' t.
Proof. intros Himp [Hne Hall]. split; [done|]. by eapply all_in_impl. Qed.

Lemma hex_set c : Re.in_set true hexdigits c = is_hex_digit c.
Proof. revert c. by_char_table. Qed.

Lemma hex_set' c : Re.in_set true hexdigits' c = is_hex_digit c.
Proof. revert c. by_char_table. Qed.

Lemma name_not_space c : is_section_name_char c = true → Char.isspace c = false.
Proof. revert c. by_cases_on_char. Qed.

Lemma space_not_name c : Char.isspace c = true → is_section_name_char c = false.
Proof. revert c. by_cases_on_char. Qed.

Lemma type_not_space c : is_type_char c = true → Char.isspace c = false.
Proof. revert c. by_cases_on_char. Qed.

Lemma space_not_type c : Char.isspace c = true → is_type_char c = false.
Proof. revert c. by_cases_on_char. Qed.

Lemma hex_not_space c : is_hex_digit c = true → Char.isspace c = false.
Proof. revert c. by_cases_on_char. Qed.

Lemma space_not_hex c : Char.isspace c = true → is_hex_digit c = false.
Proof. revert c. by_cases_on_char. Qed.

(** ** [int] on fields of digits *)

Lemma int_digits_value base acc s v :
  int_digits base acc s = Some v →
  v = acc * base ^ Z.of_nat (String.length s) + positional_value base s.
Proof.
  revert acc v. induction s as [|c s IH]; intros acc v Hv; simpl in Hv.
  - simplify_eq. simpl. lia.
  - destruct (digit_value c) as [d|] eqn:Hd; [|done].
    destruct (d <? base); [|done].
    apply IH in Hv. subst v.
    cbn [String.length positional_value]. rewrite Hd. simpl default.
    rewrite Nat2Z.inj_succ, Z.pow_succ_r by lia. lia.
Qed.

Lemma int_value s base v : int s base = Some v → v = positional_value base s.
Proof.
  destruct s as [|c s]; [done|]. unfold int.
  destruct (exceeds_limit _ _); [done|].
  intros Hv%int_digits_value. lia.
Qed.

Lemma int_digits_total base acc s :
  all_in (digit_below base) s = true → is_Some (int_digits base acc s).
Proof.
  revert acc. induction s as [|c s IH]; intros acc Hall; simpl in *; [done|].
  apply andb_prop in Hall as [Hc Hall]. unfold digit_below in Hc.
  destruct (digit_value c) as [d|]; [|done].
  apply andb_prop in Hc as [_ ->]. by apply IH.
Qed.

(** A field of digits of the base is read exactly when it is within
    the limit, and read as its positional value. *)
Lemma int_field_limit ok base t :
  (∀ c, ok c = true → digit_below base c = true) →
  field ok t →
  int t base =
    if exceeds_limit t base then None else Some (positional_value base t).
Proof.
  intros Hok [Hne Hall].
  destruct (exceeds_limit t base) eqn:Hlim.
  - destruct t as [|c t]; [done|]. unfold int. by rewrite Hlim.
  - assert (is_Some (int t base)) as [v Hv].
    { destruct t as [|c t]; [done|]. unfold int. rewrite Hlim.
      apply int_digits_total. by eapply all_in_impl. }
    by rewrite Hv, (int_value _ _ _ Hv).
Qed.

(** In base 16 there is no limit. *)
Lemma int_field ok t :
  (∀ c, ok c = true → digit_below 16 c = true) →
  field ok t → int t 16 = Some (positional_value 16 t).
Proof. intros Hok Hf. by rewrite (int_field_limit ok 16 t Hok Hf). Qed.

(** In base 10 the limit is on the length of the field. *)
Lemma int_field_decimal ok t :
  (∀ c, ok c = true → digit_below 10 c = true) →
  field ok t →
  int t 10 =
    if (String.length t <=? int_max_str_digits)%nat
    then Some (positional_value 10 t) else None.
Proof.
  intros Hok Hf. rewrite (int_field_limit ok 10 t Hok Hf).
  unfold exceeds_limit. cbn [binary_base Z.eqb orb negb andb].
  destruct (Nat.ltb_spec int_max_str_digits (String.length t));
    destruct (Nat.leb_spec (String.length t) int_max_str_digits);
    first [done | lia].
Qed.

Lemma digit_value_nonneg c : 0 ≤ default 0 (digit_value c).
Proof. revert c. by_cases_on_char. Qed.

(** A positional value is unsigned. *)
Lemma positional_value_nonneg base s : 0 ≤ base → 0 ≤ positional_value base s.
Proof.
  intros Hb. induction s as [|c s IH]; simpl; [done|].
  pose proof (digit_value_nonneg c).
  pose proof (Z.pow_nonneg base (Z.of_nat (String.length s)) Hb).
  nia.
Qed.

(** ** [strip] and blank lines *)

Lemma all_in_rev_app ok s t :
  all_in ok (String.rev_app s t) = all_in ok s && all_in ok t.
Proof.
  revert t. induction s as [|a s IH]; intros t; simpl; [done|].
  rewrite IH. simpl. destruct (ok a), (all_in ok s); done.
Qed.

Lemma all_in_rev ok s : all_in ok (String.rev s) = all_in ok s.
Proof. unfold String.rev. rewrite all_in_rev_app. simpl. apply andb_true_r. Qed.

Lemma rev_app_empty s t :
  String.rev_app s t = EmptyString → s = EmptyString ∧ t = EmptyString.
Proof.
  revert t. induction s as [|a s IH]; intros t; simpl; [done|].
  intros Hr. by apply IH in Hr as [_ ?].
Qed.

Lemma lstrip_empty s : lstrip s = EmptyString ↔ all_in Char.isspace s = true.
Proof.
  induction s as [|a s IH]; simpl; [done|].
  destruct (Char.isspace a); simpl; [done|]. split; done.
Qed.

Lemma all_in_lstrip s :
  all_in Char.isspace (lstrip s) = all_in Char.isspace s.
Proof.
  induction s as [|a s IH]; simpl; [done|].
  destruct (Char.isspace a) eqn:Ha; simpl; [done|]. by rewrite Ha.
Qed.

Lemma strip_empty s : strip s = EmptyString ↔ all_in Char.isspace s = true.
Proof.
  unfold strip, rstrip. split.
  - intros Hr. apply rev_app_empty in Hr as [Hr _].
    apply lstrip_empty in Hr. by rewrite all_in_rev, all_in_lstrip in Hr.
  - intros Hall.
    assert (lstrip (String.rev (lstrip s)) = EmptyString) as ->; [|done].
    apply lstrip_empty. by rewrite all_in_rev, all_in_lstrip.
Qed.

(** The test of line 52: the stripped line is empty exactly when the
    line is all whitespace. *)
Lemma strip_eqb s :
  String.eqb (strip s) EmptyString = all_in Char.isspace s.
Proof.
  destruct (all_in Char.isspace s) eqn:Hall.
  - apply String.eqb_eq. by apply strip_empty.
  - apply String.eqb_neq. intros Hs%strip_empty. congruence.
Qed.

(** ** One turn of each loop *)

Lemma section_row_groups f m :
  Re.re_match true section_row f = Some m →
  ∃ idx name ty addr off sz,
    m = [idx; name; ty; addr; off; sz] ∧
    field (Re.in_set true index_chars) idx ∧
    field (Re.in_set true name_chars) name ∧
    field (Re.in_set true type_chars) ty ∧
    field (Re.in_set true hexdigits) addr ∧
    field (Re.in_set true hexdigits') off ∧
    field (Re.in_set true hexdigits') sz.
Proof.
  intros Hm%ReFacts.re_match_groups. simpl in Hm.
  invert_groups. eauto 15.
Qed.

Lemma symbol_row_groups l m :
  Re.re_match true symbol_row l = Some m →
  ∃ addr sz ty bind vis ndx name,
    m = [addr; sz; ty; bind; vis; ndx; name] ∧
    field (Re.in_set true hexdigits) addr ∧
    field (Re.in_set true [Re.Digit]) sz ∧
    field (Re.in_set true symbol_name_chars) name.
Proof.
  intros Hm%ReFacts.re_match_groups. simpl in Hm.
  invert_groups. eauto 15.
Qed.

(** On a matched section row every conversion succeeds: base 16 has
    no limit. *)
Lemma section_of_match_row f m :
  Re.re_match true section_row f = Some m →
  section_of_match m = Some (section_of_groups m).
Proof.
  intros (idx & name & ty & addr & off & sz & -> & _ & _ & _ & Ha & Ho & Hs)
    %section_row_groups.
  unfold section_of_match, section_of_groups, Re.group. simpl nth.
  rewrite (int_field _ addr hexdigits_digit Ha).
  rewrite (int_field _ off hexdigits'_digit Ho).
  rewrite (int_field _ sz hexdigits'_digit Hs).
  reflexivity.
Qed.

(** On a matched symbol row the address is always read; the size is
    read exactly when its field is within the limit of [int]. *)
Lemma symbol_of_match_row l m :
  Re.re_match true symbol_row l = Some m →
  symbol_of_match m =
    if (String.length (Re.group m 2) <=? int_max_str_digits)%nat
    then Some (symbol_of_groups m) else None.
Proof.
  intros (addr & sz & ty & bind & vis & ndx & name & -> & Ha & Hs & _)
    %symbol_row_groups.
  unfold symbol_of_match, symbol_of_groups, Re.group. simpl nth.
  rewrite (int_field _ addr hexdigits_digit Ha).
  rewrite (int_field_decimal _ sz decimal_digit Hs).
  cbn [mbind option_bind].
  by destruct (String.length sz <=? int_max_str_digits)%nat.
Qed.

Lemma section_row_not_blank f m :
  Re.re_match true section_row f = Some m → all_in Char.isspace f = false.
Proof.
  intros [r Hr]%ReFacts.re_match_sound. unfold section_row in Hr.
  inversion Hr as [| |cs p t s g r' Hws Hrest| |]; subst.
  inversion Hrest as [|x a p s' g r' Hlit _| | |]; subst.
  rewrite all_in_app. simpl.
  rewrite (bracket_not_space _ Hlit). simpl. apply andb_false_r.
Qed.

Lemma blank_is_no_section_row f :
  all_in Char.isspace f = true → Re.re_match true section_row f = None.
Proof.
  intros Hb. destruct (Re.re_match true section_row f) as [m|] eqn:Hm; [|done].
  apply section_row_not_blank in Hm. congruence.
Qed.

(** Outside a table only the marker is looked for. *)
Lemma sections_step_outside secs f :
  sections_step (false, secs) f = Some (contains "Section Headers:" f, secs).
Proof. reflexivity. Qed.

(** Inside a table a line that matches the pattern adds its record. *)
Lemma sections_step_row secs f m :
  Re.re_match true section_row f = Some m →
  sections_step (true, secs) f
  = Some (true, <[Re.group m 2 := section_of_groups m]> secs).
Proof.
  intros Hm. unfold sections_step. cbn [negb].
  rewrite Hm, (section_of_match_row _ _ Hm), strip_eqb.
  by rewrite (section_row_not_blank _ _ Hm).
Qed.

(** Inside a table a line that does not match changes no record, and
    ends the table when it is blank. *)
Lemma sections_step_other secs f :
  Re.re_match true section_row f = None →
  sections_step (true, secs) f = Some (negb (all_in Char.isspace f), secs).
Proof.
  intros Hm. unfold sections_step. cbn [negb].
  rewrite Hm, strip_eqb. by destruct (all_in Char.isspace f).
Qed.

Lemma sections_step_inside secs f :
  sections_step (true, secs) f
  = Some (negb (all_in Char.isspace f), add_section secs f).
Proof.
  unfold add_section.
  destruct (Re.re_match true section_row f) as [m|] eqn:Hm.
  - rewrite (sections_step_row _ _ _ Hm).
    by rewrite (section_row_not_blank _ _ Hm).
  - by apply sections_step_other.
Qed.

Lemma symbols_step_outside syms l :
  symbols_step (false, syms) l = Some (startswith l "Symbol table ", syms).
Proof. reflexivity. Qed.

Lemma symbols_step_row syms l m :
  Re.re_match true symbol_row l = Some m →
  symbols_step (true, syms) l
  = if (String.length (Re.group m 2) <=? int_max_str_digits)%nat
    then Some (true, <[Re.group m 7 := symbol_of_groups m]> syms)
    else None.
Proof.
  intros Hm. unfold symbols_step. cbn [negb].
  rewrite Hm, (symbol_of_match_row _ _ Hm).
  by destruct (String.length (Re.group m 2) <=? int_max_str_digits)%nat.
Qed.

Lemma symbols_step_other syms l :
  Re.re_match true symbol_row l = None →
  symbols_step (true, syms) l = Some (true, syms).
Proof. intros Hm. unfold symbols_step. cbn [negb]. by rewrite Hm. Qed.

(** Inside a table a line is recorded or passed, unless it is a row
    whose size cannot be read: then the step raises. *)
Lemma symbols_step_inside syms l :
  symbols_step (true, syms) l
  = if size_readable l then Some (true, add_symbol syms l) else None.
Proof.
  unfold add_symbol, size_readable.
  destruct (Re.re_match true symbol_row l) as [m|] eqn:Hm.
  - by apply symbols_step_row.
  - by apply symbols_step_other.
Qed.

Lemma symbols_step_readable syms l :
  size_readable l = true →
  symbols_step (true, syms) l = Some (true, add_symbol syms l).
Proof. intros Hr. by rewrite symbols_step_inside, Hr. Qed.

Lemma sections_step_total st f : is_Some (sections_step st f).
Proof.
  destruct st as [[] secs].
  - by rewrite sections_step_inside.
  - by rewrite sections_step_outside.
Qed.


(** ** The loops *)

Lemma sections_loop_cons st st' f rest :
  sections_step st f = Some st' →
  sections_loop st (f :: rest) = sections_loop st' rest.
Proof. intros Hs. simpl. by rewrite Hs. Qed.

Lemma symbols_loop_cons st st' l rest :
  symbols_step st l = Some st' →
  symbols_loop st (l :: rest) = symbols_loop st' rest.
Proof. intros Hs. simpl. by rewrite Hs. Qed.

Lemma sections_loop_total st readelf_lines :
  is_Some (sections_loop st readelf_lines).
Proof.
  revert st. induction readelf_lines as [|f rest IH]; intros st; [done|].
  destruct (sections_step_total st f) as [st' Hst'].
  rewrite (sections_loop_cons _ _ _ _ Hst'). apply IH.
Qed.

Lemma symbols_loop_raises st l rest :
  symbols_step st l = None → symbols_loop st (l :: rest) = None.
Proof. intros Hs. simpl. by rewrite Hs. Qed.

Lemma parse_sections_total readelf_lines :
  is_Some (_parse_readelf_sections readelf_lines).
Proof.
  unfold _parse_readelf_sections.
  by destruct (sections_loop_total (false, ∅) readelf_lines) as [st ->].
Qed.


(** Outside a table, lines without the marker are passed over. *)
Lemma sections_loop_skip secs junk rest :
  Forall (λ f, contains "Section Headers:" f = false) junk →
  sections_loop (false, secs) (junk ++ rest) = sections_loop (false, secs) rest.
Proof.
  induction 1 as [|f junk Hf _ IH]; [done|].
  rewrite <- app_comm_cons.
  rewrite (sections_loop_cons _ (false, secs)); [done|].
  by rewrite sections_step_outside, Hf.
Qed.

Lemma symbols_loop_skip syms junk rest :
  Forall (λ l, startswith l "Symbol table " = false) junk →
  symbols_loop (false, syms) (junk ++ rest) = symbols_loop (false, syms) rest.
Proof.
  induction 1 as [|l junk Hl _ IH]; [done|].
  rewrite <- app_comm_cons.
  rewrite (symbols_loop_cons _ (false, syms)); [done|].
  by rewrite symbols_step_outside, Hl.
Qed.

(** Once inside a symbol table the pass tests every line to the end,
    and raises at the first row whose size cannot be read. *)
Lemma symbols_loop_inside syms readelf_lines :
  symbols_loop (true, syms) readelf_lines
  = if forallb size_readable readelf_lines
    then Some (true, foldl add_symbol syms readelf_lines) else None.
Proof.
  revert syms. induction readelf_lines as [|l rest IH]; intros syms; [done|].
  cbn [forallb foldl]. destruct (size_readable l) eqn:Hr.
  - rewrite (symbols_loop_cons _ _ _ _ (symbols_step_readable syms l Hr)).
    apply IH.
  - apply symbols_loop_raises. by rewrite symbols_step_inside, Hr.
Qed.

(** Each loop leaves the records of its matched rows, inserted in input
    order into the dict it started from. *)
Lemma sections_loop_rows b secs readelf_lines :
  snd <$> sections_loop (b, secs) readelf_lines
  = Some (foldl (λ d r, <[Sec.name r := r]> d) secs (section_rows b readelf_lines)).
Proof.
  revert b secs. induction readelf_lines as [|f rest IH]; intros b secs; [done|].
  destruct b.
  - rewrite (sections_loop_cons _ _ _ _ (sections_step_inside secs f)), IH.
    unfold add_section. cbn [section_rows].
    destruct (Re.re_match true section_row f) as [m|] eqn:Hm; [|done].
    by rewrite (section_row_not_blank _ _ Hm).
  - rewrite (sections_loop_cons _ _ _ _ (sections_step_outside secs f)), IH.
    done.
Qed.

Lemma symbols_loop_rows b syms readelf_lines :
  snd <$> symbols_loop (b, syms) readelf_lines
  = if sizes_readable b readelf_lines
    then Some (foldl (λ d r, <[Sym.name r := r]> d) syms
                     (symbol_rows b readelf_lines))
    else None.
Proof.
  revert b syms. induction readelf_lines as [|l rest IH]; intros b syms; [done|].
  destruct b.
  - cbn [sizes_readable]. destruct (size_readable l) eqn:Hr.
    + rewrite (symbols_loop_cons _ _ _ _ (symbols_step_readable syms l Hr)), IH.
      cbn [andb]. unfold add_symbol. cbn [symbol_rows].
      by destruct (Re.re_match true symbol_row l) as [m|] eqn:Hm.
    + rewrite symbols_loop_raises; [done|].
      by rewrite symbols_step_inside, Hr.
  - rewrite (symbols_loop_cons _ _ _ _ (symbols_step_outside syms l)), IH.
    done.
Qed.

(** The symbol pass returns exactly when every size it meets can be
    read, and then with the records of its matched rows. *)
Lemma parse_symbols_rows readelf_lines :
  _parse_readelf_symbols readelf_lines
  = if sizes_readable false readelf_lines
    then Some (foldl (λ d r, <[Sym.name r := r]> d) ∅
                     (symbol_rows false readelf_lines))
    else None.
Proof. apply symbols_loop_rows. Qed.

Lemma parse_symbols_returns readelf_lines syms :
  _parse_readelf_symbols readelf_lines = Some syms →
  sizes_readable false readelf_lines = true ∧
  syms = foldl (λ d r, <[Sym.name r := r]> d) ∅
               (symbol_rows false readelf_lines).
Proof.
  rewrite parse_symbols_rows.
  destruct (sizes_readable false readelf_lines); [|done].
  intros ?; by simplify_eq.
Qed.

Lemma sizes_readable_inside readelf_lines :
  sizes_readable true readelf_lines = forallb size_readable readelf_lines.
Proof.
  induction readelf_lines as [|l rest IH]; [done|].
  cbn [sizes_readable forallb]. by rewrite IH.
Qed.

Lemma sizes_readable_skip junk rest :
  Forall (λ l, startswith l "Symbol table " = false) junk →
  sizes_readable false (junk ++ rest) = sizes_readable false rest.
Proof.
  induction 1 as [|l junk Hl _ IH]; [done|].
  rewrite <- app_comm_cons. cbn [sizes_readable]. by rewrite Hl.
Qed.

(** Inserting records in order keeps, for each name, the last one. *)
Lemma foldl_insert_last {V} (name : V → string) (rows : list V)
    (d : gmap string V) (k : string) :
  foldl (λ d r, <[name r := r]> d) d rows !! k
  = match last (filter (λ r, name r = k) rows) with
    | Some r => Some r
    | None => d !! k
    end.
Proof.
  revert d. induction rows as [|r rows IH]; intros d; [done|].
  simpl foldl. rewrite IH, filter_cons.
  destruct (decide (name r = k)) as [Hk|Hk].
  - rewrite last_cons.
    destruct (last (filter (λ r, name r = k) rows)); [done|].
    by rewrite <- Hk, lookup_insert_eq.
  - destruct (last (filter (λ r, name r = k) rows)); [done|].
    by rewrite lookup_insert_ne.
Qed.

Lemma foldl_add_symbol syms readelf_lines :
  foldl add_symbol syms readelf_lines
  = foldl (λ d r, <[Sym.name r := r]> d) syms (omap symbol_row_record readelf_lines).
Proof.
  revert syms. induction readelf_lines as [|l rest IH]; intros syms; [done|].
  simpl foldl. rewrite IH. unfold add_symbol, symbol_row_record. simpl omap.
  by destruct (Re.re_match true symbol_row l).
Qed.

(** ** The section pattern and the row shape *)

Lemma section_row_shape_sound f m :
  Re.re_match true section_row f = Some m →
  ∃ idx name ty addr off sz rest,
    m = [idx; name; ty; addr; off; sz] ∧
    section_row_shape is_section_name_char f idx name ty addr off sz rest.
Proof.
  intros [r Hr]%ReFacts.re_match_sound. unfold section_row in Hr.
  invert_matches.
  repeat match goal with
         | H : Re.is_lit true "[" _ = true |- _ => apply lit_open in H as ->
         | H : Re.is_lit true "]" _ = true |- _ => apply lit_close in H as ->
         end.
  do 7 eexists. split; [reflexivity|].
  unfold section_row_shape. do 6 eexists. split; [reflexivity|].
  repeat match goal with
         | H : all_in (Re.in_set true [Re.Space]) _ = true |- _ =>
             rewrite (all_in_ext _ _ _ space_set) in H
         | H : field (Re.in_set true [Re.Space]) _ |- _ =>
             apply (field_ext _ _ _ space_set) in H
         | H : field (Re.in_set true hexdigits) _ |- _ =>
             apply (field_ext _ _ _ hex_set) in H
         | H : field (Re.in_set true hexdigits') _ |- _ =>
             apply (field_ext _ _ _ hex_set') in H
         | H : field (Re.in_set true [Re.Range "0" "9"; Re.Chr " "]) _ |- _ =>
             apply (field_ext _ _ _ index_set) in H
         | H : field (Re.in_set true [Re.Range "a" "z"; Re.Chr "_"; Re.Chr "."]) _ |- _ =>
             apply (field_ext _ _ _ name_set) in H
         | H : field (Re.in_set true [Re.Range "a" "z"; Re.Chr "_"]) _ |- _ =>
             apply (field_ext _ _ _ type_set) in H
         end.
  repeat match goal with |- _ ∧ _ => split end; assumption.
Qed.

Lemma section_row_shape_complete f idx name ty addr off sz rest :
  section_row_shape is_section_name_char f idx name ty addr off sz rest →
  is_Some (Re.re_match true section_row f).
Proof.
  intros (ws0 & ws1 & ws2 & ws3 & ws4 & ws5 & -> & H0 & Hi & H1 & Hn & H2 &
          Ht & H3 & Ha & H4 & Ho & H5 & Hs).
  apply (ReFacts.re_match_complete true _ _ [idx; name; ty; addr; off; sz] rest).
  rewrite !app_cons, !app_empty_l. unfold section_row.
  apply ReShape.M_star; [by rewrite (all_in_ext _ _ _ space_set)|].
  apply ReShape.M_lit; [done|].
  apply ReShape.M_group; [by apply (field_ext _ _ _ index_set)|].
  apply ReShape.M_lit; [done|].
  apply ReShape.M_plus; [by apply (field_ext _ _ _ space_set)|].
  apply ReShape.M_group; [by apply (field_ext _ _ _ name_set)|].
  apply ReShape.M_plus; [by apply (field_ext _ _ _ space_set)|].
  apply ReShape.M_group; [by apply (field_ext _ _ _ type_set)|].
  apply ReShape.M_plus; [by apply (field_ext _ _ _ space_set)|].
  apply ReShape.M_group; [by apply (field_ext _ _ _ hex_set)|].
  apply ReShape.M_plus; [by apply (field_ext _ _ _ space_set)|].
  apply ReShape.M_group; [by apply (field_ext _ _ _ hex_set')|].
  apply ReShape.M_plus; [by apply (field_ext _ _ _ space_set)|].
  apply ReShape.M_group; [by apply (field_ext _ _ _ hex_set')|].
  constructor.
Qed.

(** When no hexadecimal digit trails the size, the groups are the
    fields of the shape. *)
Lemma section_row_shape_groups f idx name ty addr off sz rest :
  section_row_shape is_section_name_char f idx name ty addr off sz rest →
  head_in is_hex_digit rest = false →
  Re.re_match true section_row f = Some [idx; name; ty; addr; off; sz].
Proof.
  intros (ws0 & ws1 & ws2 & ws3 & ws4 & ws5 & -> & H0 & Hi & H1 & Hn & H2 &
          Ht & H3 & Ha & H4 & Ho & H5 & Hs) Hrest.
  apply ReFacts.re_match_tight.
  rewrite !app_cons, !app_empty_l. unfold section_row.
  apply ReShape.T_star;
    [by rewrite (all_in_ext _ _ _ space_set)|reflexivity|].
  apply ReShape.T_lit; [done|].
  apply ReShape.T_group;
    [by apply (field_ext _ _ _ index_set)|reflexivity|].
  apply ReShape.T_lit; [done|].
  apply ReShape.T_plus; [by apply (field_ext _ _ _ space_set)| |].
  { rewrite (head_in_ext _ _ _ space_set).
    by apply (head_in_field _ _ _ _ name_not_space). }
  apply ReShape.T_group; [by apply (field_ext _ _ _ name_set)| |].
  { rewrite (head_in_ext _ _ _ name_set).
    by apply (head_in_field _ _ _ _ space_not_name). }
  apply ReShape.T_plus; [by apply (field_ext _ _ _ space_set)| |].
  { rewrite (head_in_ext _ _ _ space_set).
    by apply (head_in_field _ _ _ _ type_not_space). }
  apply ReShape.T_group; [by apply (field_ext _ _ _ type_set)| |].
  { rewrite (head_in_ext _ _ _ type_set).
    by apply (head_in_field _ _ _ _ space_not_type). }
  apply ReShape.T_plus; [by apply (field_ext _ _ _ space_set)| |].
  { rewrite (head_in_ext _ _ _ space_set).
    by apply (head_in_field _ _ _ _ hex_not_space). }
  apply ReShape.T_group; [by apply (field_ext _ _ _ hex_set)| |].
  { rewrite (head_in_ext _ _ _ hex_set).
    by apply (head_in_field _ _ _ _ space_not_hex). }
  apply ReShape.T_plus; [by apply (field_ext _ _ _ space_set)| |].
  { rewrite (head_in_ext _ _ _ space_set).
    by apply (head_in_field _ _ _ _ hex_not_space). }
  apply ReShape.T_group; [by apply (field_ext _ _ _ hex_set')| |].
  { rewrite (head_in_ext _ _ _ hex_set').
    by apply (head_in_field _ _ _ _ space_not_hex). }
  apply ReShape.T_plus; [by apply (field_ext _ _ _ space_set)| |].
  { rewrite (head_in_ext _ _ _ space_set).
    by apply (head_in_field _ _ _ _ hex_not_space). }
  apply ReShape.T_group; [by apply (field_ext _ _ _ hex_set')| |].
  { by rewrite (head_in_ext _ _ _ hex_set'). }
  constructor.
Qed.

(** A line of the row shape is matched with its index, name, type tag,
    address and file offset as groups 1 to 5; group 6 is the size with
    the hexadecimal digits that trail it, if any. *)
Lemma section_row_shape_match f idx name ty addr off sz rest :
  section_row_shape is_section_name_char f idx name ty addr off sz rest →
  ∃ sz', Re.re_match true section_row f = Some [idx; name; ty; addr; off; sz'] ∧
         (head_in is_hex_digit rest = false → sz' = sz).
Proof.
  intros Hshape. destruct (head_in is_hex_digit rest) eqn:Hrest.
  - destruct (longest_run is_hex_digit rest) as (t & r & -> & Ht & Hr).
    exists (sz +:+ t). split; [|done].
    apply (section_row_shape_groups f idx name ty addr off (sz +:+ t) r); [|done].
    destruct Hshape as (ws0 & ws1 & ws2 & ws3 & ws4 & ws5 & -> & H0 & Hi & H1 &
                        Hn & H2 & Hty & H3 & Ha & H4 & Ho & H5 & [Hs1 Hs2]).
    exists ws0, ws1, ws2, ws3, ws4, ws5.
    rewrite app_assoc_string.
    repeat match goal with |- _ ∧ _ => split end; try done.
    split; [by destruct sz|]. by rewrite all_in_app, Hs2, Ht.
  - exists sz. split; [|done]. by eapply section_row_shape_groups.
Qed.

(** ** The change computer *)

Section ChangesFacts.
Context {A : Type} `{HasSize A}.
Implicit Types old_map new_map : gmap string A.

Lemma first_loop_lookup old_map new_map s :
  map_fold (changes_old new_map) ∅ old_map !! s
  = resized_or_removed (old_map !! s) (new_map !! s).
Proof.
  revert s.
  refine (map_fold_weak_ind
    (fun r m => ∀ s, r !! s = resized_or_removed (m !! s) (new_map !! s))
    (changes_old new_map) ∅ _ _ old_map).
  - intros s. by rewrite !lookup_empty.
  - intros i x m r Hfresh IH s. unfold changes_old.
    destruct (decide (i = s)) as [->|Hne].
    + rewrite lookup_insert_eq. simpl.
      destruct (new_map !! s) as [n|] eqn:Hn.
      * destruct (size_of x =? size_of n) eqn:Hsz; simpl.
        -- rewrite IH, Hfresh. reflexivity.
        -- by rewrite lookup_insert_eq.
      * by rewrite lookup_insert_eq.
    + rewrite (lookup_insert_ne m) by done.
      destruct (new_map !! i) as [n|].
      * destruct (negb (size_of x =? size_of n)).
        -- rewrite lookup_insert_ne by done. apply IH.
        -- apply IH.
      * rewrite lookup_insert_ne by done. apply IH.
Qed.

Lemma second_loop_lookup old_map new_map (c : gmap string Change.t) s :
  map_fold (changes_new old_map) c new_map !! s
  = match new_map !! s, old_map !! s with
    | Some new, None =>
        Some (Change.mk 0 (size_of new) (size_of new) "added")
    | _, _ => c !! s
    end.
Proof.
  revert s.
  refine (map_fold_weak_ind
    (fun r m => ∀ s, r !! s = match m !! s, old_map !! s with
                             | Some new, None =>
                                 Some (Change.mk 0 (size_of new) (size_of new) "added")
                             | _, _ => c !! s
                             end)
    (changes_new old_map) c _ _ new_map).
  - intros s. by rewrite lookup_empty.
  - intros i x m r Hfresh IH s. unfold changes_new.
    destruct (decide (i = s)) as [->|Hne].
    + rewrite lookup_insert_eq.
      destruct (old_map !! s) eqn:Ho.
      * rewrite IH, Hfresh. reflexivity.
      * by rewrite lookup_insert_eq.
    + rewrite (lookup_insert_ne m) by done.
      destruct (old_map !! i).
      * apply IH.
      * rewrite lookup_insert_ne by done. apply IH.
Qed.

Lemma changes_lookup old_map new_map s :
  _changes old_map new_map !! s = change_of (old_map !! s) (new_map !! s).
Proof.
  unfold _changes. rewrite second_loop_lookup, first_loop_lookup.
  destruct (old_map !! s), (new_map !! s); reflexivity.
Qed.

End ChangesFacts.

(** ** Patterns whose matches are determined *)

Lemma run_split_unique ok t t' r r' :
  all_in ok t = true → all_in ok t' = true →
  head_in ok r = false → head_in ok r' = false →
  t +:+ r = t' +:+ r' → t = t' ∧ r = r'.
Proof.
  revert t'. induction t as [|a t IH]; intros [|a' t'] Ht Ht' Hr Hr' Heq.
  - done.
  - rewrite app_empty_l, app_cons in Heq. subst r. simpl in *.
    apply andb_prop in Ht' as [Ha' _]. congruence.
  - rewrite app_empty_l, app_cons in Heq. subst r'. simpl in *.
    apply andb_prop in Ht as [Ha _]. congruence.
  - rewrite !app_cons in Heq. injection Heq as -> Heq. simpl in *.
    apply andb_prop in Ht as [_ Ht]. apply andb_prop in Ht' as [_ Ht'].
    destruct (IH t' Ht Ht' Hr Hr' Heq) as [-> ->]. done.
Qed.

Module ReSepFacts.
Import Re ReShape ReSep.

Lemma end_ok_tail ic x p r : end_ok ic (x :: p) r → end_ok ic p r.
Proof. destruct x, p; simpl; auto. Qed.

(** What a separated pattern matches begins outside the set of the
    repetition before it. *)
Lemma head_of_matches ic cs p s g r :
  matches ic p s g r → follows_outside ic cs p →
  (p = [] → head_in (in_set ic cs) r = false) →
  head_in (in_set ic cs) s = false.
Proof.
  intros Hm Hout Hend.
  destruct Hm as [r|x a p s g r Hl _|cs' p t s g r _ _
                 |cs' p t s g r Hf _|cs' p t s g r Hf _]; simpl in Hout.
  - by apply Hend.
  - simpl. by apply Hout.
  - done.
  - eapply head_in_field; [|exact Hf]. exact Hout.
  - eapply head_in_field; [|exact Hf]. exact Hout.
Qed.

Lemma end_ok_last ic cs p r :
  (end_ok ic (Star cs :: p) r ∨ end_ok ic (Plus cs :: p) r ∨
   end_ok ic (Group cs :: p) r) →
  p = [] → head_in (in_set ic cs) r = false.
Proof. intros Hend ->. simpl in Hend. tauto. Qed.

(** In a separated pattern no run of a match can be made longer. *)
Lemma matches_tight ic p s g r :
  separated ic p → matches ic p s g r → end_ok ic p r → tight ic p s g.
Proof.
  intros Hsep Hm. induction Hm as [r|x a p s g r Hl Hm IH|cs p t s g r Hall Hm IH
                                  |cs p t s g r Hf Hm IH|cs p t s g r Hf Hm IH];
    intros Hend; simpl in Hsep.
  - constructor.
  - constructor; [done|]. apply IH; [done|]. by eapply end_ok_tail.
  - destruct Hsep as [Hout Hsep]. constructor; [done| |].
    + eapply head_of_matches; [exact Hm|exact Hout|].
      apply (end_ok_last ic cs p r). auto.
    + apply IH; [done|]. by eapply end_ok_tail.
  - destruct Hsep as [Hout Hsep]. constructor; [done| |].
    + eapply head_of_matches; [exact Hm|exact Hout|].
      apply (end_ok_last ic cs p r). auto.
    + apply IH; [done|]. by eapply end_ok_tail.
  - destruct Hsep as [Hout Hsep]. constructor; [done| |].
    + eapply head_of_matches; [exact Hm|exact Hout|].
      apply (end_ok_last ic cs p r). auto.
    + apply IH; [done|]. by eapply end_ok_tail.
Qed.

(** A separated pattern cuts a text in one way only. *)
Lemma tight_unique ic p s g g' r' :
  separated ic p → tight ic p s g → matches ic p s g' r' →
  end_ok ic p r' → g = g'.
Proof.
  intros Hsep Ht. revert g' r'.
  induction Ht as [r|x a p s g Hl Ht IH|cs p t s g Hall Hh Ht IH
                  |cs p t s g Hf Hh Ht IH|cs p t s g Hf Hh Ht IH];
    intros g' r' Hm Hend; simpl in Hsep.
  - by inversion Hm.
  - inversion Hm; subst. eapply IH; [done|eassumption|]. by eapply end_ok_tail.
  - destruct Hsep as [Hout Hsep]. inversion Hm; subst.
    match goal with
    | Heq : _ +:+ ?s' = _ +:+ _, Hm' : matches _ _ ?s' _ _,
      Hall' : all_in _ _ = true |- _ =>
        assert (head_in (in_set ic cs) s' = false) as Hh'
          by (eapply head_of_matches; [exact Hm'|exact Hout|];
              apply (end_ok_last ic cs p r'); auto);
        destruct (run_split_unique _ _ _ _ _ Hall' Hall Hh' Hh Heq) as [-> ->];
        eapply IH; [done|exact Hm'|]
    end.
    by eapply end_ok_tail.
  - destruct Hsep as [Hout Hsep]. inversion Hm; subst.
    destruct Hf as [_ Hall].
    match goal with
    | Heq : _ +:+ ?s' = _ +:+ _, Hm' : matches _ _ ?s' _ _,
      Hf' : field _ _ |- _ =>
        assert (head_in (in_set ic cs) s' = false) as Hh'
          by (eapply head_of_matches; [exact Hm'|exact Hout|];
              apply (end_ok_last ic cs p r'); auto);
        destruct Hf' as [_ Hall'];
        destruct (run_split_unique _ _ _ _ _ Hall' Hall Hh' Hh Heq) as [-> ->];
        eapply IH; [done|exact Hm'|]
    end.
    by eapply end_ok_tail.
  - destruct Hsep as [Hout Hsep]. inversion Hm; subst.
    destruct Hf as [_ Hall].
    match goal with
    | Heq : _ +:+ ?s' = _ +:+ _, Hm' : matches _ _ ?s' _ _,
      Hf' : field _ _ |- _ =>
        assert (head_in (in_set ic cs) s' = false) as Hh'
          by (eapply head_of_matches; [exact Hm'|exact Hout|];
              apply (end_ok_last ic cs p r'); auto);
        destruct Hf' as [_ Hall'];
        destruct (run_split_unique _ _ _ _ _ Hall' Hall Hh' Hh Heq) as [-> ->];
        f_equal; eapply IH; [done|exact Hm'|]
    end.
    by eapply end_ok_tail.
Qed.

Lemma matches_app_inv ic p1 p2 s g r :
  matches ic (p1 ++ p2) s g r →
  ∃ g1 g2 r1, matches ic p1 s g1 r1 ∧ matches ic p2 r1 g2 r ∧ g = g1 ++ g2.
Proof.
  revert s g. induction p1 as [|x p1 IH]; intros s g Hm.
  - exists [], g, s. split; [constructor|done].
  - rewrite <- app_comm_cons in Hm. inversion Hm; subst;
      match goal with
      | Hm' : matches _ (p1 ++ p2) _ _ _ |- _ =>
          destruct (IH _ _ Hm') as (g1 & g2 & r1 & Hone & Htwo & ->)
      end.
    + exists g1, g2, r1. split; [by constructor|done].
    + exists g1, g2, r1. split; [by constructor|done].
    + exists g1, g2, r1. split; [by constructor|done].
    + eexists (_ :: g1), g2, r1. split; [by constructor|done].
Qed.

Lemma field_impl (ok ok' : ascii → bool) t :
  (∀ c, ok c = true → ok' c = true) → field ok t → field ok' t.
Proof. intros Himp [Hne Hall]. split; [done|]. by eapply all_in_impl. Qed.

Lemma matches_weaken ic p p' s g r :
  Forall2 (piece_le ic) p p' → matches ic p s g r → matches ic p' s g r.
Proof.
  intros Hle Hm. revert p' Hle.
  induction Hm as [r|x a p s g r Hl Hm IH|cs p t s g r Hall Hm IH
                  |cs p t s g r Hf Hm IH|cs p t s g r Hf Hm IH];
    intros p' Hle.
  - apply Forall2_nil_inv_l in Hle as ->. constructor.
  - apply Forall2_cons_inv_l in Hle as (b & q & Hb & Hq & ->).
    destruct b; simpl in Hb; try done. subst. constructor; auto.
  - apply Forall2_cons_inv_l in Hle as (b & q & Hb & Hq & ->).
    destruct b; simpl in Hb; try done.
    constructor; [by eapply all_in_impl|auto].
  - apply Forall2_cons_inv_l in Hle as (b & q & Hb & Hq & ->).
    destruct b; simpl in Hb; try done.
    constructor; [by eapply field_impl|auto].
  - apply Forall2_cons_inv_l in Hle as (b & q & Hb & Hq & ->).
    destruct b; simpl in Hb; try done.
    constructor; [by eapply field_impl|auto].
Qed.

Lemma piece_le_refl ic a : piece_le ic a a.
Proof. destruct a; simpl; auto. Qed.

End ReSepFacts.

(** ** The symbol pattern and the row shape *)

Lemma digit_set c : Re.in_set true [Re.Digit] c = Char.isdecimal c.
Proof. revert c. by_char_table. Qed.

Lemma word_set c : Re.in_set true [Re.Word] c = Char.isword c.
Proof. revert c. by_char_table. Qed.

Lemma symbol_name_set c :
  Re.in_set true symbol_name_chars c = is_symbol_name_char c.
Proof. revert c. by_char_table. Qed.

Lemma lit_colon c : Re.is_lit true ":" c = true → c = ":"%char.
Proof. revert c. by_cases_on_char. Qed.

Lemma digit_is_word c :
  Re.in_set true [Re.Digit] c = true → Re.in_set true [Re.Word] c = true.
Proof. revert c. by_cases_on_char. Qed.

Lemma name_is_word_or_dot c :
  Re.in_set true name_chars c = true →
  Re.in_set true [Re.Word; Re.Chr "."] c = true.
Proof. revert c. by_cases_on_char. Qed.

Lemma symbol_row_separated : ReSep.separated true symbol_row.
Proof. simpl. repeat split; by_cases_on_char. Qed.

Lemma symbol_row_any_index_separated : ReSep.separated true symbol_row_any_index.
Proof. simpl. repeat split; by_cases_on_char. Qed.

Lemma section_row_any_name_separated : ReSep.separated true section_row_any_name.
Proof. simpl. repeat split; by_cases_on_char. Qed.

Lemma matches_app ic p1 p2 s g1 r1 g2 r :
  ReShape.matches ic p1 s g1 r1 → ReShape.matches ic p2 r1 g2 r →
  ReShape.matches ic (p1 ++ p2) s (g1 ++ g2) r.
Proof.
  intros H1 H2. induction H1; simpl; [done|by constructor; auto..].
Qed.

(** The fields of a symbol row are a text for the first fifteen pieces
    of the pattern, whatever set the section index is taken from. *)
Lemma symbol_row_fields_matches ndx_ok cs l num addr sz ty bind vis ndx tail :
  (∀ c, Re.in_set true cs c = ndx_ok c) →
  symbol_row_fields ndx_ok l num addr sz ty bind vis ndx tail →
  ReShape.matches true (take 14 symbol_row ++ [Re.Group cs]) l
    [addr; sz; ty; bind; vis; ndx] tail.
Proof.
  intros Hcs (ws0 & ws1 & ws2 & ws3 & ws4 & ws5 & ws6 & -> & H0 & Hn & H1 & Ha &
              H2 & Hs & H3 & Ht & H4 & Hb & H5 & Hv & H6 & Hx).
  rewrite !app_cons, !app_empty_l. simpl.
  apply ReShape.M_plus; [by apply (field_ext _ _ _ space_set)|].
  apply ReShape.M_plus; [by apply (field_ext _ _ _ digit_set)|].
  apply ReShape.M_lit; [done|].
  apply ReShape.M_plus; [by apply (field_ext _ _ _ space_set)|].
  apply ReShape.M_group; [by apply (field_ext _ _ _ hex_set)|].
  apply ReShape.M_plus; [by apply (field_ext _ _ _ space_set)|].
  apply ReShape.M_group; [by apply (field_ext _ _ _ digit_set)|].
  apply ReShape.M_plus; [by apply (field_ext _ _ _ space_set)|].
  apply ReShape.M_group; [by apply (field_ext _ _ _ word_set)|].
  apply ReShape.M_plus; [by apply (field_ext _ _ _ space_set)|].
  apply ReShape.M_group; [by apply (field_ext _ _ _ word_set)|].
  apply ReShape.M_plus; [by apply (field_ext _ _ _ space_set)|].
  apply ReShape.M_group; [by apply (field_ext _ _ _ word_set)|].
  apply ReShape.M_plus; [by apply (field_ext _ _ _ space_set)|].
  apply ReShape.M_group; [by apply (field_ext _ _ _ Hcs)|].
  constructor.
Qed.

Lemma symbol_row_shape_matches l num addr sz ty bind vis ndx name rest :
  symbol_row_shape l num addr sz ty bind vis ndx name rest →
  ReShape.matches true symbol_row l [addr; sz; ty; bind; vis; ndx; name] rest.
Proof.
  intros (ws7 & Hfields & H7 & Hname).
  apply (symbol_row_fields_matches _ [Re.Digit] _ _ _ _ _ _ _ _ _ digit_set)
    in Hfields.
  change symbol_row with
    ((take 14 symbol_row ++ [Re.Group [Re.Digit]]) ++ symbol_row_name_part).
  change [addr; sz; ty; bind; vis; ndx; name]
    with ([addr; sz; ty; bind; vis; ndx] ++ [name]).
  eapply matches_app; [exact Hfields|].
  unfold symbol_row_name_part. simpl.
  apply ReShape.M_plus; [by apply (field_ext _ _ _ space_set)|].
  apply ReShape.M_group; [by apply (field_ext _ _ _ symbol_name_set)|].
  constructor.
Qed.

(** When the name cannot be made longer, the groups are the fields of
    the shape. *)
Lemma symbol_row_shape_groups l num addr sz ty bind vis ndx name rest :
  symbol_row_shape l num addr sz ty bind vis ndx name rest →
  head_in is_symbol_name_char rest = false →
  Re.re_match true symbol_row l = Some [addr; sz; ty; bind; vis; ndx; name].
Proof.
  intros Hshape Hrest. apply ReFacts.re_match_tight.
  eapply ReSepFacts.matches_tight.
  - exact symbol_row_separated.
  - exact (symbol_row_shape_matches _ _ _ _ _ _ _ _ _ _ Hshape).
  - simpl. by rewrite (head_in_ext _ _ _ symbol_name_set).
Qed.

Lemma symbol_row_shape_sound l m :
  Re.re_match true symbol_row l = Some m →
  ∃ num addr sz ty bind vis ndx name rest,
    m = [addr; sz; ty; bind; vis; ndx; name] ∧
    symbol_row_shape l num addr sz ty bind vis ndx name rest.
Proof.
  intros [r Hr]%ReFacts.re_match_sound. unfold symbol_row in Hr.
  invert_matches.
  match goal with
  | H : Re.is_lit true ":" _ = true |- _ => apply lit_colon in H as ->
  end.
  do 9 eexists. split; [reflexivity|].
  unfold symbol_row_shape, symbol_row_fields.
  eexists. split; [do 7 eexists; split; [reflexivity|]|].
  - repeat match goal with
           | H : field (Re.in_set true [Re.Space]) _ |- _ =>
               apply (field_ext _ _ _ space_set) in H
           | H : field (Re.in_set true hexdigits) _ |- _ =>
               apply (field_ext _ _ _ hex_set) in H
           | H : field (Re.in_set true [Re.Digit]) _ |- _ =>
               apply (field_ext _ _ _ digit_set) in H
           | H : field (Re.in_set true [Re.Word]) _ |- _ =>
               apply (field_ext _ _ _ word_set) in H
           end.
    repeat match goal with |- _ ∧ _ => split end; eassumption.
  - split.
    + apply (field_ext _ _ _ space_set). eassumption.
    + apply (field_ext _ _ _ symbol_name_set). eassumption.
Qed.

Lemma symbol_row_shape_complete l num addr sz ty bind vis ndx name rest :
  symbol_row_shape l num addr sz ty bind vis ndx name rest →
  is_Some (Re.re_match true symbol_row l).
Proof.
  intros Hshape. eapply ReFacts.re_match_complete.
  exact (symbol_row_shape_matches _ _ _ _ _ _ _ _ _ _ Hshape).
Qed.

(** A row whose section index is a word that is not a number matches
    nothing. *)
Lemma symbol_row_word_index l num addr sz ty bind vis ndx tail :
  symbol_row_fields Char.isword l num addr sz ty bind vis ndx tail →
  all_in Char.isdecimal ndx = false →
  head_in Char.isword tail = false →
  Re.re_match true symbol_row l = None.
Proof.
  intros Hfields Hndx Htail.
  destruct (Re.re_match true symbol_row l) as [m|] eqn:Hm; [|done].
  apply ReFacts.re_match_sound in Hm as [r Hm].
  change symbol_row with (symbol_row_fields_part ++ symbol_row_name_part) in Hm.
  apply ReSepFacts.matches_app_inv in Hm as (g1 & g2 & r1 & Hm1 & Hm2 & ->).
  pose proof (ReFacts.matches_groups _ _ _ _ _ Hm1) as Hg. simpl in Hg.
  invert_groups.
  assert (ReShape.matches true symbol_row_any_index l
            [addr; sz; ty; bind; vis; ndx] tail) as Hrow.
  { exact (symbol_row_fields_matches _ [Re.Word] _ _ _ _ _ _ _ _ _
             word_set Hfields). }
  assert (ReShape.tight true symbol_row_any_index l
            [addr; sz; ty; bind; vis; ndx]) as Htight.
  { eapply ReSepFacts.matches_tight; [exact symbol_row_any_index_separated|
                                      exact Hrow|].
    simpl. by rewrite (head_in_ext _ _ _ word_set). }
  eapply ReSepFacts.matches_weaken in Hm1.
  2: { instantiate (1 := symbol_row_any_index).
       unfold symbol_row_fields_part, symbol_row_any_index. simpl.
       repeat (constructor; [first [apply ReSepFacts.piece_le_refl
                                   |exact digit_is_word]|]).
       constructor. }
  eapply ReSepFacts.tight_unique in Hm1;
    [|exact symbol_row_any_index_separated|exact Htight|].
  - simplify_eq.
    match goal with
    | H : field (Re.in_set true [Re.Digit]) ?n,
      Hb : all_in Char.isdecimal ?n = false |- _ =>
        apply (field_ext _ _ _ digit_set) in H as [_ H]; congruence
    end.
  - simpl. unfold symbol_row_name_part in Hm2. simpl in Hm2.
    inversion Hm2; subst.
    eapply head_in_field; [|eassumption].
    clear. by_cases_on_char.
Qed.

(** A section row whose name is made of word characters and dots, not
    all of them letters, underscores or dots, matches nothing. *)
Lemma section_row_other_name f ws0 idx ws1 name tail :
  f = ws0 +:+ "[" +:+ idx +:+ "]" +:+ ws1 +:+ name +:+ tail →
  all_in Char.isspace ws0 = true → field is_index_char idx →
  field Char.isspace ws1 → field is_symbol_name_char name →
  all_in is_section_name_char name = false →
  head_in is_symbol_name_char tail = false →
  Re.re_match true section_row f = None.
Proof.
  intros -> H0 Hi H1 Hn Hbad Htail.
  destruct (Re.re_match true section_row _) as [m|] eqn:Hm; [|done].
  apply ReFacts.re_match_sound in Hm as [r Hm].
  change section_row with (section_row_name_part ++ drop 6 section_row) in Hm.
  apply ReSepFacts.matches_app_inv in Hm as (g1 & g2 & r1 & Hm1 & Hm2 & ->).
  pose proof (ReFacts.matches_groups _ _ _ _ _ Hm1) as Hg. simpl in Hg.
  invert_groups.
  assert (ReShape.matches true section_row_any_name
            (ws0 +:+ "[" +:+ idx +:+ "]" +:+ ws1 +:+ name +:+ tail)
            [idx; name] tail) as Hrow.
  { rewrite !app_cons, !app_empty_l. simpl.
    apply ReShape.M_star; [by rewrite (all_in_ext _ _ _ space_set)|].
    apply ReShape.M_lit; [done|].
    apply ReShape.M_group; [by apply (field_ext _ _ _ index_set)|].
    apply ReShape.M_lit; [done|].
    apply ReShape.M_plus; [by apply (field_ext _ _ _ space_set)|].
    apply ReShape.M_group; [by apply (field_ext _ _ _ symbol_name_set)|].
    constructor. }
  assert (ReShape.tight true section_row_any_name
            (ws0 +:+ "[" +:+ idx +:+ "]" +:+ ws1 +:+ name +:+ tail)
            [idx; name]) as Htight.
  { eapply ReSepFacts.matches_tight; [exact section_row_any_name_separated|
                                      exact Hrow|].
    simpl. by rewrite (head_in_ext _ _ _ symbol_name_set). }
  eapply ReSepFacts.matches_weaken in Hm1.
  2: { instantiate (1 := section_row_any_name).
       unfold section_row_name_part, section_row_any_name. simpl.
       repeat (constructor; [first [apply ReSepFacts.piece_le_refl
                                   |exact name_is_word_or_dot]|]).
       constructor. }
  eapply ReSepFacts.tight_unique in Hm1;
    [|exact section_row_any_name_separated|exact Htight|].
  - simplify_eq.
    match goal with
    | H : field (Re.in_set true _) ?n,
      Hb : all_in is_section_name_char ?n = false |- _ =>
        apply (field_ext _ _ _ name_set) in H as [_ H]; congruence
    end.
  - simpl. simpl in Hm2. inversion Hm2; subst.
    eapply head_in_field; [|eassumption].
    clear. by_cases_on_char.
Qed.

(** ** More on the change computer *)

Section MoreChangesFacts.
Context {A : Type} `{HasSize A}.
Implicit Types old_map new_map : gmap string A.

Lemma changes_lookup_none old_map new_map s :
  _changes old_map new_map !! s = None
  ↔ size_of <$> old_map !! s = size_of <$> new_map !! s.
Proof.
  rewrite changes_lookup.
  destruct (old_map !! s) as [o|], (new_map !! s) as [n|]; simpl; try done.
  destruct (size_of o =? size_of n) eqn:Hsz.
  - apply Z.eqb_eq in Hsz. by rewrite Hsz.
  - apply Z.eqb_neq in Hsz. split; [done|]. intros [=]. done.
Qed.

Lemma changes_from_empty_old new_map : _changes ∅ new_map = added_record <$> new_map.
Proof.
  apply map_eq. intros s.
  rewrite lookup_fmap, changes_lookup, lookup_empty. by destruct (new_map !! s).
Qed.

Lemma changes_to_empty_new old_map : _changes old_map ∅ = removed_record <$> old_map.
Proof.
  apply map_eq. intros s.
  rewrite lookup_fmap, changes_lookup, lookup_empty. by destruct (old_map !! s).
Qed.

End MoreChangesFacts.

(** ** More on the rows of a pass *)

Lemma section_rows_elem b readelf_lines r :
  r ∈ section_rows b readelf_lines →
  ∃ f m, f ∈ readelf_lines ∧ Re.re_match true section_row f = Some m ∧
         r = section_of_groups m.
Proof.
  revert b. induction readelf_lines as [|f rest IH]; intros b Hr;
    cbn [section_rows] in Hr.
  - by apply elem_of_nil in Hr.
  - destruct b.
    + destruct (Re.re_match true section_row f) as [m|] eqn:Hm.
      * apply elem_of_cons in Hr as [->|Hr].
        -- exists f, m. split; [left|done].
        -- destruct (IH _ Hr) as (f' & m' & ? & ? & ?).
           exists f', m'. split; [by right|done].
      * destruct (IH _ Hr) as (f' & m' & ? & ? & ?).
        exists f', m'. split; [by right|done].
    + destruct (IH _ Hr) as (f' & m' & ? & ? & ?).
      exists f', m'. split; [by right|done].
Qed.

Lemma symbol_rows_elem b readelf_lines r :
  r ∈ symbol_rows b readelf_lines →
  ∃ l m, l ∈ readelf_lines ∧ Re.re_match true symbol_row l = Some m ∧
         r = symbol_of_groups m.
Proof.
  revert b. induction readelf_lines as [|l rest IH]; intros b Hr;
    cbn [symbol_rows] in Hr.
  - by apply elem_of_nil in Hr.
  - destruct b.
    + destruct (Re.re_match true symbol_row l) as [m|] eqn:Hm.
      * apply elem_of_cons in Hr as [->|Hr].
        -- exists l, m. split; [left|done].
        -- destruct (IH _ Hr) as (l' & m' & ? & ? & ?).
           exists l', m'. split; [by right|done].
      * destruct (IH _ Hr) as (l' & m' & ? & ? & ?).
        exists l', m'. split; [by right|done].
    + destruct (IH _ Hr) as (l' & m' & ? & ? & ?).
      exists l', m'. split; [by right|done].
Qed.

(** Every record of a returned dict was built from a matched line. *)
Lemma parse_sections_lookup readelf_lines secs k r :
  _parse_readelf_sections readelf_lines = Some secs → secs !! k = Some r →
  ∃ f m, f ∈ readelf_lines ∧ Re.re_match true section_row f = Some m ∧
         r = section_of_groups m ∧ k = Re.group m 2.
Proof.
  intros Hp Hk.
  unfold _parse_readelf_sections in Hp. rewrite sections_loop_rows in Hp.
  simplify_eq. rewrite foldl_insert_last in Hk.
  destruct (last _) as [r'|] eqn:Hlast; [|by rewrite lookup_empty in Hk].
  simplify_eq. apply last_Some_elem_of in Hlast.
  apply list_elem_of_filter in Hlast as [Hname Hr].
  destruct (section_rows_elem _ _ _ Hr) as (f & m & Hf & Hm & ->).
  by exists f, m.
Qed.

Lemma parse_symbols_lookup readelf_lines syms k s :
  _parse_readelf_symbols readelf_lines = Some syms → syms !! k = Some s →
  ∃ l m, l ∈ readelf_lines ∧ Re.re_match true symbol_row l = Some m ∧
         s = symbol_of_groups m ∧ k = Re.group m 7.
Proof.
  intros [_ ->]%parse_symbols_returns Hk.
  rewrite foldl_insert_last in Hk.
  destruct (last _) as [s'|] eqn:Hlast; [|by rewrite lookup_empty in Hk].
  simplify_eq. apply last_Some_elem_of in Hlast.
  apply list_elem_of_filter in Hlast as [Hname Hs].
  destruct (symbol_rows_elem _ _ _ Hs) as (l & m & Hl & Hm & ->).
  by exists l, m.
Qed.

Lemma sections_loop_app st l1 l2 :
  sections_loop st (l1 ++ l2) = sections_loop st l1 ≫= λ st', sections_loop st' l2.
Proof.
  revert st. induction l1 as [|f l1 IH]; intros st; [done|].
  simpl. destruct (sections_step st f) as [st'|]; [apply IH|done].
Qed.

Lemma symbols_loop_app st l1 l2 :
  symbols_loop st (l1 ++ l2) = symbols_loop st l1 ≫= λ st', symbols_loop st' l2.
Proof.
  revert st. induction l1 as [|l l1 IH]; intros st; [done|].
  simpl. destruct (symbols_step st l) as [st'|]; [apply IH|done].
Qed.

Lemma add_section_keeps secs f k :
  is_Some (secs !! k) → is_Some (add_section secs f !! k).
Proof.
  intros Hk. unfold add_section.
  destruct (Re.re_match true section_row f) as [m|]; [|done].
  rewrite lookup_insert. by case_decide.
Qed.

Lemma add_symbol_keeps syms l k :
  is_Some (syms !! k) → is_Some (add_symbol syms l !! k).
Proof.
  intros Hk. unfold add_symbol.
  destruct (Re.re_match true symbol_row l) as [m|]; [|done].
  rewrite lookup_insert. by case_decide.
Qed.

Lemma sections_loop_keeps b secs readelf_lines b' secs' k :
  sections_loop (b, secs) readelf_lines = Some (b', secs') →
  is_Some (secs !! k) → is_Some (secs' !! k).
Proof.
  revert b secs. induction readelf_lines as [|f rest IH]; intros b secs Hl Hk.
  - by simplify_eq/=.
  - destruct b.
    + rewrite (sections_loop_cons _ _ _ _ (sections_step_inside secs f)) in Hl.
      eapply IH; [exact Hl|]. by apply add_section_keeps.
    + rewrite (sections_loop_cons _ _ _ _ (sections_step_outside secs f)) in Hl.
      eapply IH; [exact Hl|done].
Qed.

Lemma symbols_loop_keeps b syms readelf_lines b' syms' k :
  symbols_loop (b, syms) readelf_lines = Some (b', syms') →
  is_Some (syms !! k) → is_Some (syms' !! k).
Proof.
  revert b syms. induction readelf_lines as [|l rest IH]; intros b syms Hl Hk.
  - by simplify_eq/=.
  - destruct b.
    + destruct (size_readable l) eqn:Hr.
      * rewrite (symbols_loop_cons _ _ _ _ (symbols_step_readable syms l Hr))
          in Hl.
        eapply IH; [exact Hl|]. by apply add_symbol_keeps.
      * rewrite symbols_loop_raises in Hl; [done|].
        by rewrite symbols_step_inside, Hr.
    + rewrite (symbols_loop_cons _ _ _ _ (symbols_step_outside syms l)) in Hl.
      eapply IH; [exact Hl|done].
Qed.

(** ** Records of a pass are unsigned *)

Lemma section_records_nonneg readelf_lines secs k r :
  _parse_readelf_sections readelf_lines = Some secs → secs !! k = Some r →
  0 ≤ Sec.address r ∧ 0 ≤ Sec.offset r ∧ 0 ≤ Sec.size r.
Proof.
  intros Hp Hk.
  destruct (parse_sections_lookup _ _ _ _ Hp Hk) as (f & m & _ & _ & -> & _).
  repeat split; by apply positional_value_nonneg.
Qed.

Lemma symbol_records_nonneg readelf_lines syms k s :
  _parse_readelf_symbols readelf_lines = Some syms → syms !! k = Some s →
  0 ≤ Sym.address s ∧ 0 ≤ Sym.size s.
Proof.
  intros Hp Hk.
  destruct (parse_symbols_lookup _ _ _ _ Hp Hk) as (l & m & _ & _ & -> & _).
  split; by apply positional_value_nonneg.
Qed.

(** ** [split] *)

Lemma split_cons sep s : ∃ h r, split sep s = h :: r.
Proof.
  induction s as [|c s (h & r & IH)]; simpl; [by eauto|].
  destruct (Ascii.eqb c sep); [by eauto|]. rewrite IH. by eauto.
Qed.

Lemma join_cons sep h r :
  join sep (h :: r)
  = match r with [] => h | _ => h +:+ String sep (join sep r) end.
Proof. by destruct r. Qed.

Lemma join_split sep s : join sep (split sep s) = s.
Proof.
  induction s as [|c s IH]; [done|]. simpl.
  destruct (split_cons sep s) as (h & r & Hs). rewrite Hs in *.
  destruct (Ascii.eqb c sep) eqn:Hc.
  - apply Ascii.eqb_eq in Hc as ->. rewrite join_cons. by rewrite IH.
  - rewrite join_cons in *. destruct r; [by rewrite IH|].
    by rewrite app_cons, IH.
Qed.

Lemma split_without_sep sep s :
  Forall (λ l, all_in (is_not sep) l = true) (split sep s).
Proof.
  induction s as [|c s IH]; simpl; [by repeat constructor|].
  destruct (Ascii.eqb c sep) eqn:Hc; [by constructor|].
  destruct (split sep s) as [|h r]; [by repeat constructor; simpl;
                                      unfold is_not; rewrite Hc|].
  apply Forall_cons in IH as [Hh Hr]. constructor; [|done].
  simpl. unfold is_not at 1. by rewrite Hc.
Qed.

(** ** Writing tables *)

Lemma length_app s t :
  String.length (s +:+ t) = (String.length s + String.length t)%nat.
Proof. induction s as [|a s IH]; [done|]. rewrite app_cons. simpl. by rewrite IH. Qed.

Lemma length_spaces n : String.length (spaces n) = n.
Proof. induction n as [|n IH]; simpl; [done|]. by rewrite IH. Qed.

Lemma length_ljust width s :
  (String.length s ≤ width)%nat → String.length (ljust width s) = width.
Proof. intros Hs. unfold ljust. rewrite length_app, length_spaces. lia. Qed.

Lemma length_rjust width s :
  (String.length s ≤ width)%nat → String.length (rjust width s) = width.
Proof. intros Hs. unfold rjust. rewrite length_app, length_spaces. lia. Qed.

Lemma length_pad_10 v :
  (String.length (str v) ≤ 10)%nat → String.length (pad_10 v) = 10%nat.
Proof.
  destruct v as [z|s]; simpl; intros Hv.
  - by apply length_rjust.
  - by apply length_ljust.
Qed.

(** The digits of a number are no more than the characters of its
    text. *)
Lemma decimal_digits_le z :
  (decimal_digits z ≤ String.length (str (VInt z)))%nat.
Proof.
  unfold decimal_digits, str. destruct z as [|p|p]; simpl; lia.
Qed.

(** A value whose text has at most ten characters can be printed. *)
Lemma short_printable v :
  (String.length (str v) ≤ 10)%nat → printable v = true.
Proof.
  destruct v as [z|s]; [|done]. intros Hz. unfold printable.
  apply Nat.leb_le. pose proof (decimal_digits_le z).
  unfold int_max_str_digits. lia.
Qed.

Lemma format_10_some v : is_Some (format_10 v) ↔ printable v = true.
Proof.
  unfold format_10. destruct (printable v); split; first [done | by intros [? ?]].
Qed.

Lemma format_plain_some v : is_Some (format_plain v) ↔ printable v = true.
Proof.
  unfold format_plain.
  destruct (printable v); split; first [done | by intros [? ?]].
Qed.

Lemma prefix_app m t : String.prefix m (m +:+ t) = true.
Proof.
  induction m as [|a m IH]; [by destruct t|].
  rewrite app_cons. simpl. destruct (ascii_dec a a); [exact IH|done].
Qed.

Lemma io_bind_eq {A B} (m : io A) (f : A → io B) out :
  (m ≫= f) out
  = match m out with
    | (Some x, out') => f x out'
    | (None, out') => (None, out')
    end.
Proof. reflexivity. Qed.

Lemma write_then {B} s (k : io B) out : (write s ;; k) out = k (out +:+ s).
Proof. reflexivity. Qed.

Lemma write_eq s out : write s out = (Some (), out +:+ s).
Proof. reflexivity. Qed.

Lemma for_each_cons {A} (x : A) xs body out :
  for_each (x :: xs) body out
  = match body x out with
    | (Some _, out') => for_each xs body out'
    | (None, out') => (None, out')
    end.
Proof. reflexivity. Qed.

(** A loop returns when every turn returns. *)
Lemma for_each_returns {A} (ok : A → Prop) (xs : list A) body out :
  (∀ x out, fst (body x out) = Some () ↔ ok x) →
  fst (for_each xs body out) = Some () ↔ Forall ok xs.
Proof.
  intros Hbody. revert out. induction xs as [|x xs IH]; intros out.
  - split; [by constructor|done].
  - rewrite for_each_cons, Forall_cons. specialize (Hbody x out).
    destruct (body x out) as [[[]|] out']; simpl in *.
    + rewrite IH. tauto.
    + split; [done|]. intros [Hx _]. by apply Hbody in Hx.
Qed.

(** A loop of writes returns, and has only added to the text. *)
Lemma for_each_write {A} (xs : list A) (text : A → string) out :
  ∃ w, for_each xs (λ x, write (text x)) out = (Some (), out +:+ w).
Proof.
  revert out. induction xs as [|x xs IH]; intros out.
  - exists EmptyString. simpl. unfold mret, io_ret.
    f_equal. induction out as [|a out IHo]; [done|].
    by rewrite app_cons, <- IHo.
  - rewrite for_each_cons. simpl.
    destruct (IH (out +:+ text x)) as [w ->].
    exists (text x +:+ w). by rewrite app_assoc_string.
Qed.

Section TablesFacts.
Context {D : Type} `{Subscript D}.

(** The cells of one row are written when the row has every key and
    every value is formatted. *)
Lemma cells_return (d : D) (fmt : value → option string)
    (text : string → string) keys out :
  fst (for_each keys (λ k, v ← subscript d k;
                           cell ← raising (fmt v);
                           write (text cell)) out) = Some ()
  ↔ Forall (λ k, ∃ v, getitem d k = Some v ∧ is_Some (fmt v)) keys.
Proof.
  apply for_each_returns. intros k out'.
  rewrite io_bind_eq. unfold subscript, raising at 1.
  destruct (getitem d k) as [v|]; simpl.
  - rewrite io_bind_eq. unfold raising.
    destruct (fmt v) as [cell|] eqn:Hf; simpl; split.
    + intros _. exists v. by rewrite Hf.
    + done.
    + done.
    + intros (v' & [= <-] & [? Hv]). congruence.
  - split; [done|]. by intros (v' & ? & _).
Qed.

Lemma cells_writable (d : D) (fmt : value → option string) keys :
  (∀ v, is_Some (fmt v) ↔ printable v = true) →
  Forall (λ k, ∃ v, getitem d k = Some v ∧ is_Some (fmt v)) keys
  ↔ Forall (cell_writable d) keys.
Proof.
  intros Hfmt. apply Forall_iff. intros k. unfold cell_writable.
  split; intros (v & Hv & Hp); exists v; (split; [done|]); by apply Hfmt.
Qed.

Lemma text_row_returns (d : D) (m : string) keys out :
  fst ((write (percent_minus_s 30 m) ;;
        for_each keys (λ k, v ← subscript d k;
                            cell ← raising (format_10 v);
                            write (" | " +:+ cell)) ;;
        write (String newline EmptyString)) out) = Some ()
  ↔ Forall (cell_writable d) keys.
Proof.
  rewrite write_then, io_bind_eq.
  rewrite <- (cells_writable d format_10 keys format_10_some).
  rewrite <- (cells_return d format_10 (λ cell, " | " +:+ cell) keys
                (out +:+ percent_minus_s 30 m)).
  by destruct (for_each keys _ _) as [[[]|] out'].
Qed.

Lemma html_row_returns (d : D) (m : string) keys out :
  fst ((write "<tr>" ;;
        write ("<td>" +:+ m +:+ "</td>") ;;
        for_each keys (λ k, v ← subscript d k;
                            cell ← raising (format_plain v);
                            write ("<td>" +:+ cell +:+ "</td>")) ;;
        write ("</tr>" +:+ String newline EmptyString)) out) = Some ()
  ↔ Forall (cell_writable d) keys.
Proof.
  rewrite !write_then, io_bind_eq.
  rewrite <- (cells_writable d format_plain keys format_plain_some).
  rewrite <- (cells_return d format_plain
                (λ cell, "<td>" +:+ cell +:+ "</td>") keys
                ((out +:+ "<tr>") +:+ "<td>" +:+ m +:+ "</td>")).
  by destruct (for_each keys _ _) as [[[]|] out'].
Qed.

Lemma output_text_table_returns title (map_table : list (string * D)) keys out :
  fst (output_text_table title map_table keys out) = Some ()
  ↔ Forall (λ row, Forall (cell_writable row.2) keys) map_table.
Proof.
  unfold output_text_table. rewrite !write_then, io_bind_eq.
  destruct (for_each_write keys (λ k, " | " +:+ percent_minus_s 10 k)
              ((out +:+ title +:+ String newline EmptyString)
               +:+ percent_minus_s 30 "name")) as [w ->].
  rewrite !write_then, io_bind_eq.
  match goal with
  | |- fst (match for_each _ ?body ?o with _ => _ end) = _ ↔ _ =>
      rewrite <- (for_each_returns
                    (λ row : string * D, Forall (cell_writable row.2) keys)
                    map_table body o);
        [by destruct (for_each map_table body o) as [[[]|] out']|]
  end.
  intros [m d] out'. apply text_row_returns.
Qed.

Lemma output_html_table_returns title (map_table : list (string * D)) keys out :
  fst (output_html_table title map_table keys out) = Some ()
  ↔ Forall (λ row, Forall (cell_writable row.2) keys) map_table.
Proof.
  unfold output_html_table. rewrite !write_then, io_bind_eq.
  match goal with
  | |- context [for_each keys ?body ?o] =>
      destruct (for_each_write keys
                  (λ k, "<th>" +:+ k +:+ "</th>" +:+ String newline EmptyString)
                  o) as [w ->]
  end.
  rewrite !write_then, io_bind_eq.
  match goal with
  | |- fst (match for_each _ ?body ?o with _ => _ end) = _ ↔ _ =>
      rewrite <- (for_each_returns
                    (λ row : string * D, Forall (cell_writable row.2) keys)
                    map_table body o);
        [by destruct (for_each map_table body o) as [[[]|] out']|]
  end.
  intros [m d] out'. apply html_row_returns.
Qed.

(** The header cells: thirteen characters a key. *)
Lemma header_cells keys out :
  Forall (λ k, (String.length k ≤ 10)%nat) keys →
  ∃ w, for_each keys (λ k, write (" | " +:+ percent_minus_s 10 k)) out
       = (Some (), out +:+ w) ∧
       String.length w = (13 * length keys)%nat.
Proof.
  intros Hkeys. revert out. induction Hkeys as [|k keys Hk _ IH]; intros out.
  - exists EmptyString. split; [|done]. simpl. unfold mret, io_ret.
    f_equal. induction out as [|a out IHo]; [done|].
    by rewrite app_cons, <- IHo.
  - rewrite for_each_cons. simpl.
    destruct (IH (out +:+ " | " +:+ percent_minus_s 10 k)) as (w & -> & Hw).
    exists ((" | " +:+ percent_minus_s 10 k) +:+ w).
    split; [by rewrite app_assoc_string|].
    rewrite !length_app, Hw. unfold percent_minus_s.
    rewrite (length_ljust _ _ Hk). simpl. lia.
Qed.

(** The cells of a row whose values fit: thirteen characters a key. *)
Lemma row_cells (d : D) keys out :
  Forall (λ k, ∃ v, getitem d k = Some v ∧ (String.length (str v) ≤ 10)%nat)
         keys →
  ∃ w, for_each keys (λ k, v ← subscript d k;
                           cell ← raising (format_10 v);
                           write (" | " +:+ cell)) out
       = (Some (), out +:+ w) ∧
       String.length w = (13 * length keys)%nat.
Proof.
  intros Hkeys. revert out.
  induction Hkeys as [|k keys (v & Hv & Hfit) _ IH]; intros out.
  - exists EmptyString. split; [|done]. simpl. unfold mret, io_ret.
    f_equal. induction out as [|a out IHo]; [done|].
    by rewrite app_cons, <- IHo.
  - rewrite for_each_cons, io_bind_eq.
    unfold subscript at 1. unfold raising at 1. rewrite Hv. cbv beta iota. rewrite io_bind_eq. unfold raising at 1.
    unfold format_10 at 1. rewrite (short_printable _ Hfit). cbv beta iota.
    unfold write at 1.
    destruct (IH (out +:+ " | " +:+ pad_10 v)) as (w & -> & Hw).
    exists ((" | " +:+ pad_10 v) +:+ w).
    split; [by rewrite app_assoc_string|].
    rewrite !length_app, Hw, (length_pad_10 _ Hfit). simpl. lia.
Qed.

End TablesFacts.

(** * The claims *)

(** C1. For every pair of name-keyed maps and every name, [_changes]
    holds: a ["resize"] record with both sizes and [diff = new - old]
    when the name is in both maps with different sizes; a ["removed"]
    record with [new = 0] and [diff = - old] when it is in the old map
    only; an ["added"] record with [old = 0] and [diff = new] when it is
    in the new map only; and no record otherwise, in particular none for
    a name in both maps with equal sizes. *)
Theorem changes_exact {A : Type} `{HasSize A}
    (old_map new_map : gmap string A) (s : string) :
  _changes old_map new_map !! s
  = match old_map !! s, new_map !! s with
    | Some old, Some new =>
        if size_of old =? size_of new then None
        else Some {| Change.old := size_of old; Change.new := size_of new;
                     Change.diff := size_of new - size_of old;
                     Change.change := "resize" |}
    | Some old, None =>
        Some {| Change.old := size_of old; Change.new := 0;
                Change.diff := - size_of old; Change.change := "removed" |}
    | None, Some new =>
        Some {| Change.old := 0; Change.new := size_of new;
                Change.diff := size_of new; Change.change := "added" |}
    | None, None => None
    end.
Proof.
  unfold _changes. rewrite second_loop_lookup, first_loop_lookup.
  destruct (old_map !! s) as [old|], (new_map !! s) as [new|]; reflexivity.
Qed.

(** The scenario of the specification: [foo] grows from 10 to 12, [bar]
    goes, [baz] comes. *)
Example changes_scenario :
  _changes (A := Z) (<["foo" := 10]> {["bar" := 4]})
                    (<["foo" := 12]> {["baz" := 8]})
  = <["foo" := Change.mk 10 12 2 "resize"]>
      (<["bar" := Change.mk 4 0 (-4) "removed"]>
         {["baz" := Change.mk 0 8 8 "added"]}).
Proof.
  apply map_eq. intros s. rewrite changes_lookup.
  destruct (decide (s = "foo")) as [->|Hfoo]; [done|].
  destruct (decide (s = "bar")) as [->|Hbar]; [done|].
  destruct (decide (s = "baz")) as [->|Hbaz]; [done|].
  rewrite !lookup_insert_ne, !lookup_singleton_ne by done.
  done.
Qed.

(** C2. The symbol pass is not total.  A row of a symbol table whose
    size field has 4301 digits matches the row pattern, and [int] at
    line 96 refuses a decimal text of that length: nothing catches the
    [ValueError], so the pass raises, on lines for which the section pass
    returns the empty dict. *)
Theorem symbol_pass_raises_on_long_size :
  _parse_readelf_symbols
    ["Symbol table '.symtab' contains 1 entries:"; long_size_row] = None ∧
  _parse_readelf_sections
    ["Symbol table '.symtab' contains 1 entries:"; long_size_row] = Some ∅.
Proof. split; vm_compute; reflexivity. Qed.

(** C3. For a name held by [a_map] only, [_changes a_map b_map] reports
    it ["removed"] with [diff = - size] and [_changes b_map a_map]
    reports it ["added"] with [diff = + size]. *)
Theorem changes_antisymmetric {A : Type} `{HasSize A}
    (a_map b_map : gmap string A) (s : string) (v : A) :
  a_map !! s = Some v →
  b_map !! s = None →
  _changes a_map b_map !! s
    = Some {| Change.old := size_of v; Change.new := 0;
              Change.diff := - size_of v; Change.change := "removed" |} ∧
  _changes b_map a_map !! s
    = Some {| Change.old := 0; Change.new := size_of v;
              Change.diff := size_of v; Change.change := "added" |}.
Proof.
  intros Ha Hb. rewrite !changes_lookup, Ha, Hb. done.
Qed.

Lemma changes_antisymmetric_witness :
  _changes (A := Z) {["bar" := 4]} ∅ !! "bar"
    = Some {| Change.old := 4; Change.new := 0;
              Change.diff := -4; Change.change := "removed" |} ∧
  _changes (A := Z) ∅ {["bar" := 4]} !! "bar"
    = Some {| Change.old := 0; Change.new := 4;
              Change.diff := 4; Change.change := "added" |}.
Proof.
  refine (changes_antisymmetric (A := Z) {["bar" := 4]} ∅ "bar" 4 _ _);
    reflexivity.
Defined.

(** C4. A well-shaped section row whose name holds a digit yields no
    record.  The row of [.text1] has the row shape with a name of
    letters, digits, underscores and dots, but the name group of the
    pattern is [[a-z_\.]+], without the digits that the name group
    [[\w\.]+] of the symbol pattern takes: the row does not match, the
    turn of the loop stores nothing, and the pass returns the empty
    dict. *)
Theorem digit_in_section_name_rejected :
  section_row_shape is_identifier_like_char
    "  [ 2] .text1            PROGBITS        00000000 010000 0007d0 00  AX  0   0  8"
    " 2" ".text1" "PROGBITS" "00000000" "010000" "0007d0" " 00  AX  0   0  8" ∧
  Re.re_match true section_row
    "  [ 2] .text1            PROGBITS        00000000 010000 0007d0 00  AX  0   0  8"
    = None ∧
  sections_step (true, ∅)
    "  [ 2] .text1            PROGBITS        00000000 010000 0007d0 00  AX  0   0  8"
    = Some (true, ∅) ∧
  _parse_readelf_sections
    ["Section Headers:";
     "  [ 2] .text1            PROGBITS        00000000 010000 0007d0 00  AX  0   0  8"]
    = Some ∅.
Proof.
  split; [|by vm_compute].
  exists "  ", " ", "            ", "        ", " ", " ".
  vm_compute. repeat split; discriminate.
Qed.

(** C5. On a matched section row the address, the file offset and the
    size of the record are the base-16 values of groups 4, 5 and 6.  On
    a matched symbol row the record, whenever line 96 builds it, has as
    address the base-16 value of group 1 and as size the base-10 value of
    group 2; it is built exactly when group 2 has no more digits than
    [int] reads in base 10.  All the numbers are unsigned. *)
Theorem numeric_bases (f l : string) (m m' : list string)
    (secs : gmap string Sec.t) (syms : gmap string Sym.t) :
  Re.re_match true section_row f = Some m →
  Re.re_match true symbol_row l = Some m' →
  (∃ rec,
     section_of_match m = Some rec ∧
     sections_step (true, secs) f = Some (true, <[Re.group m 2 := rec]> secs) ∧
     Sec.address rec = positional_value 16 (Re.group m 4) ∧
     Sec.offset rec = positional_value 16 (Re.group m 5) ∧
     Sec.size rec = positional_value 16 (Re.group m 6) ∧
     0 ≤ Sec.address rec ∧ 0 ≤ Sec.offset rec ∧ 0 ≤ Sec.size rec) ∧
  (∀ s,
     symbol_of_match m' = Some s →
     symbols_step (true, syms) l = Some (true, <[Re.group m' 7 := s]> syms) ∧
     Sym.address s = positional_value 16 (Re.group m' 1) ∧
     Sym.size s = positional_value 10 (Re.group m' 2) ∧
     0 ≤ Sym.address s ∧ 0 ≤ Sym.size s) ∧
  (is_Some (symbol_of_match m')
   ↔ (String.length (Re.group m' 2) ≤ int_max_str_digits)%nat).
Proof.
  intros Hf Hl. split; [|split].
  - exists (section_of_groups m). split; [by eapply section_of_match_row|].
    split; [by apply sections_step_row|].
    repeat split; by apply positional_value_nonneg.
  - intros s Hs. rewrite (symbols_step_row _ _ _ Hl).
    rewrite (symbol_of_match_row _ _ Hl) in Hs.
    destruct (String.length (Re.group m' 2) <=? int_max_str_digits)%nat;
      [|done].
    injection Hs as <-.
    repeat split; by apply positional_value_nonneg.
  - rewrite (symbol_of_match_row _ _ Hl).
    destruct (Nat.leb_spec (String.length (Re.group m' 2)) int_max_str_digits).
    + split; [done|]. intros _. by eexists.
    + split; [by intros [? ?]|]. lia.
Qed.

Lemma numeric_bases_witness :
  (∃ rec,
     section_of_match [" 1"; ".vectors"; "PROGBITS"; "00000000"; "010000"; "0007d0"]
       = Some rec ∧
     sections_step (true, ∅)
       "  [ 1] .vectors          PROGBITS        00000000 010000 0007d0 00  AX  0   0  8"
       = Some (true, <[".vectors" := rec]> ∅) ∧
     Sec.address rec = 0 ∧ Sec.offset rec = 65536 ∧ Sec.size rec = 2000 ∧
     0 ≤ Sec.address rec ∧ 0 ≤ Sec.offset rec ∧ 0 ≤ Sec.size rec) ∧
  (symbols_step (true, ∅)
     "   619: 3ed0069d    92 FUNC    GLOBAL DEFAULT    2 strlen"
   = Some (true, <["strlen" := Sym.mk 1053820573 92 "strlen"]> ∅) ∧
   Sym.address (Sym.mk 1053820573 92 "strlen") = 1053820573 ∧
   Sym.size (Sym.mk 1053820573 92 "strlen") = 92 ∧
   0 ≤ Sym.address (Sym.mk 1053820573 92 "strlen") ∧
   0 ≤ Sym.size (Sym.mk 1053820573 92 "strlen")).
Proof.
  destruct (numeric_bases
    "  [ 1] .vectors          PROGBITS        00000000 010000 0007d0 00  AX  0   0  8"
    "   619: 3ed0069d    92 FUNC    GLOBAL DEFAULT    2 strlen"
    [" 1"; ".vectors"; "PROGBITS"; "00000000"; "010000"; "0007d0"]
    ["3ed0069d"; "92"; "FUNC"; "GLOBAL"; "DEFAULT"; "2"; "strlen"]
    ∅ ∅) as (Hsec & Hsym & _).
  - vm_compute; reflexivity.
  - vm_compute; reflexivity.
  - split; [exact Hsec|].
    apply (Hsym (Sym.mk 1053820573 92 "strlen")). vm_compute; reflexivity.
Defined.

(** The two bases differ on the same text. *)
Example ten_in_both_bases :
  int "10" 16 = Some 16 ∧ int "10" 10 = Some 10 ∧
  positional_value 16 "7d0" = 2000 ∧ int "7D0" 16 = Some 2000.
Proof. repeat split. Qed.

(** C6. In the section pass a blank line met inside a table ends the
    table; the lines that follow are passed over until a line carries
    the marker again, and the rows after that marker are parsed again.
    The pass returns a dict however often the marker occurs. *)
Theorem blank_line_ends_section_table
    (secs : gmap string Sec.t) (blank : string) (junk : list string)
    (h row : string) (m : list string) (rest : list string) :
  all_in Char.isspace blank = true →
  Forall (λ f, contains "Section Headers:" f = false) junk →
  contains "Section Headers:" h = true →
  Re.re_match true section_row row = Some m →
  sections_step (true, secs) blank = Some (false, secs) ∧
  sections_loop (true, secs) (blank :: junk) = Some (false, secs) ∧
  sections_loop (true, secs) (blank :: junk ++ h :: row :: rest)
    = sections_loop (true, <[Re.group m 2 := section_of_groups m]> secs) rest ∧
  (∀ readelf_lines, is_Some (_parse_readelf_sections readelf_lines)).
Proof.
  intros Hblank Hjunk Hh Hrow.
  assert (sections_step (true, secs) blank = Some (false, secs)) as Hstep.
  { rewrite sections_step_inside, Hblank. unfold add_section.
    by rewrite (blank_is_no_section_row _ Hblank). }
  split; [done|]. split; [|split].
  - rewrite (sections_loop_cons _ _ _ _ Hstep).
    rewrite <- (app_nil_r junk). by rewrite (sections_loop_skip _ _ [] Hjunk).
  - rewrite (sections_loop_cons _ _ _ _ Hstep).
    rewrite (sections_loop_skip _ _ _ Hjunk).
    rewrite (sections_loop_cons _ (true, secs));
      [|by rewrite sections_step_outside, Hh].
    by rewrite (sections_loop_cons _ _ _ _ (sections_step_row secs row m Hrow)).
  - apply parse_sections_total.
Qed.

Lemma blank_line_ends_section_table_witness :
  sections_loop (true, ∅)
    ["   ";
     "  [ 7] .dropped PROGBITS 00000000 010000 0007d0";
     "Section Headers:";
     "  [ 1] .vectors PROGBITS 00000000 010000 0007d0"]
  = Some (true, {[".vectors" := Sec.mk ".vectors" "PROGBITS" 0 65536 2000]}).
Proof.
  destruct (blank_line_ends_section_table ∅ "   "
    ["  [ 7] .dropped PROGBITS 00000000 010000 0007d0"]
    "Section Headers:"
    "  [ 1] .vectors PROGBITS 00000000 010000 0007d0"
    [" 1"; ".vectors"; "PROGBITS"; "00000000"; "010000"; "0007d0"] [])
    as (_ & _ & Hloop & _).
  - reflexivity.
  - repeat constructor.
  - reflexivity.
  - vm_compute; reflexivity.
  - etrans; [exact Hloop | reflexivity].
Defined.

(** C7. In the symbol pass nothing ends a table: after the first header
    line every later line is tested as a row, whatever blank lines or
    further headers lie between, and all matching rows go into one dict,
    which holds for each name the record of the last matching row.  That
    dict is what the pass returns whenever it returns, and it returns
    when the size of every later row can be read. *)
Theorem symbol_rows_accumulate (pre : list string) (h : string)
    (post : list string) :
  Forall (λ l, startswith l "Symbol table " = false) pre →
  startswith h "Symbol table " = true →
  (∀ syms, _parse_readelf_symbols (pre ++ h :: post) = Some syms →
           syms = foldl add_symbol ∅ post) ∧
  (forallb size_readable post = true →
   _parse_readelf_symbols (pre ++ h :: post) = Some (foldl add_symbol ∅ post)) ∧
  ∀ k, foldl add_symbol ∅ post !! k
       = last_symbol k (omap symbol_row_record post).
Proof.
  intros Hpre Hh.
  assert (_parse_readelf_symbols (pre ++ h :: post)
          = if forallb size_readable post
            then Some (foldl add_symbol ∅ post) else None) as Hparse.
  { unfold _parse_readelf_symbols.
    rewrite (symbols_loop_skip _ _ _ Hpre).
    rewrite (symbols_loop_cons _ (true, ∅));
      [|by rewrite symbols_step_outside, Hh].
    rewrite symbols_loop_inside. by destruct (forallb size_readable post). }
  split; [|split].
  - intros syms. rewrite Hparse.
    destruct (forallb size_readable post); [|done]. by intros [= <-].
  - intros Hread. by rewrite Hparse, Hread.
  - intros k. rewrite foldl_add_symbol, foldl_insert_last.
    unfold last_symbol. by destruct (last _).
Qed.

Lemma symbol_rows_accumulate_witness :
  _parse_readelf_symbols
    ["     9: 00000000     4 FUNC    GLOBAL DEFAULT    2 early";
     "Symbol table '.dynsym' contains 1 entries:";
     "     1: 3ed04a28    10 FUNC    WEAK   DEFAULT    2 foo";
     EmptyString;
     "Symbol table '.symtab' contains 1 entries:";
     "     1: 3ed04a28    12 FUNC    WEAK   DEFAULT    2 foo"]
  = Some {["foo" := Sym.mk 1053837864 12 "foo"]}.
Proof.
  destruct (symbol_rows_accumulate
    ["     9: 00000000     4 FUNC    GLOBAL DEFAULT    2 early"]
    "Symbol table '.dynsym' contains 1 entries:"
    ["     1: 3ed04a28    10 FUNC    WEAK   DEFAULT    2 foo";
     EmptyString;
     "Symbol table '.symtab' contains 1 entries:";
     "     1: 3ed04a28    12 FUNC    WEAK   DEFAULT    2 foo"])
    as (_ & Hparse & _).
  - repeat constructor.
  - reflexivity.
  - etrans; [apply Hparse; vm_compute; reflexivity | vm_compute; reflexivity].
Defined.

(** C8. In both passes the dict holds, for every name, the record built
    from the last matched row that bears the name, and nothing for a
    name no matched row bears.  The section pass always returns such a
    dict; the symbol pass returns it whenever it returns, which it does
    when the size of every row it tests can be read. *)
Theorem last_write_wins (readelf_lines : list string) (k : string) :
  (∃ secs, _parse_readelf_sections readelf_lines = Some secs ∧
           secs !! k = last_section k (section_rows false readelf_lines)) ∧
  (∀ syms, _parse_readelf_symbols readelf_lines = Some syms →
           syms !! k = last_symbol k (symbol_rows false readelf_lines)) ∧
  (sizes_readable false readelf_lines = true →
   is_Some (_parse_readelf_symbols readelf_lines)).
Proof.
  split; [|split].
  - eexists. split; [apply sections_loop_rows|].
    rewrite foldl_insert_last. unfold last_section. by destruct (last _).
  - intros syms [_ ->]%parse_symbols_returns.
    rewrite foldl_insert_last. unfold last_symbol. by destruct (last _).
  - intros Hread. rewrite parse_symbols_rows, Hread. by eexists.
Qed.

Lemma last_write_wins_witness :
  ({["foo" := Sym.mk 1053837864 12 "foo"]} : gmap string Sym.t) !! "foo"
  = last_symbol "foo"
      (symbol_rows false
         ["Symbol table '.dynsym' contains 1 entries:";
          "     1: 3ed04a28    10 FUNC    WEAK   DEFAULT    2 foo";
          "     2: 3ed04a28    12 FUNC    WEAK   DEFAULT    2 foo"]).
Proof.
  destruct (last_write_wins
    ["Symbol table '.dynsym' contains 1 entries:";
     "     1: 3ed04a28    10 FUNC    WEAK   DEFAULT    2 foo";
     "     2: 3ed04a28    12 FUNC    WEAK   DEFAULT    2 foo"] "foo")
    as (_ & Hsym & _).
  apply Hsym. vm_compute; reflexivity.
Defined.

(** Two rows for [.data] inside one table: the second one stays. *)
Example duplicate_data_rows :
  _parse_readelf_sections
    ["Section Headers:";
     "  [ 1] .data PROGBITS 00000000 010000 000010";
     "  [ 2] .bss NOBITS 00000010 010010 000004";
     "  [ 3] .data PROGBITS 00000020 010020 000030"]
  = Some (<[".data" := Sec.mk ".data" "PROGBITS" 32 65568 48]>
            {[".bss" := Sec.mk ".bss" "NOBITS" 16 65552 4]}).
Proof. vm_compute. reflexivity. Qed.

(** C9. A line can make the symbol pass raise.  [long_size_row] matches
    the row pattern, with the name [big] and a size field of 4301
    digits; line 96 builds no record for it, since [int] refuses the
    size, and the line is not passed over either: the turn of the loop
    raises, and so does the pass, whatever rows come before and after.
    It is the defect of C2, met here at one line. *)
Theorem long_size_row_not_skipped :
  (∃ m, Re.re_match true symbol_row long_size_row = Some m ∧
        Re.group m 7 = "big" ∧
        String.length (Re.group m 2) = S int_max_str_digits ∧
        symbol_of_match m = None) ∧
  symbols_step (true, ∅) long_size_row = None ∧
  _parse_readelf_symbols
    ["Symbol table '.symtab' contains 3 entries:";
     "     0: 3ed04a28    10 FUNC    WEAK   DEFAULT    2 foo";
     long_size_row;
     "     2: 3ed0069d    92 FUNC    GLOBAL DEFAULT    2 strlen"] = None.
Proof.
  split; [|split; vm_compute; reflexivity].
  exists ["00000000"; repeat_string "1" (S int_max_str_digits);
          "FUNC"; "GLOBAL"; "DEFAULT"; "1"; "big"].
  split; [vm_compute; reflexivity|].
  split; [reflexivity|].
  split; vm_compute; reflexivity.
Qed.

(** C10. Every record in the dict a pass returns is stored under its
    own name. *)
Theorem key_is_record_name (readelf_lines : list string) :
  (∀ secs k r, _parse_readelf_sections readelf_lines = Some secs →
               secs !! k = Some r → Sec.name r = k) ∧
  (∀ syms k s, _parse_readelf_symbols readelf_lines = Some syms →
               syms !! k = Some s → Sym.name s = k).
Proof.
  split.
  - intros secs k r Hp Hk.
    unfold _parse_readelf_sections in Hp. rewrite sections_loop_rows in Hp.
    simplify_eq. rewrite foldl_insert_last in Hk.
    destruct (last _) as [r'|] eqn:Hlast; [|by rewrite lookup_empty in Hk].
    simplify_eq. apply last_Some_elem_of in Hlast.
    by apply list_elem_of_filter in Hlast as [? _].
  - intros syms k s [_ ->]%parse_symbols_returns Hk.
    rewrite foldl_insert_last in Hk.
    destruct (last _) as [s'|] eqn:Hlast; [|by rewrite lookup_empty in Hk].
    simplify_eq. apply last_Some_elem_of in Hlast.
    by apply list_elem_of_filter in Hlast as [? _].
Qed.

Lemma key_is_record_name_witness :
  Sec.name (Sec.mk ".vectors" "PROGBITS" 0 65536 2000) = ".vectors" ∧
  Sym.name (Sym.mk 1053820573 92 "strlen") = "strlen".
Proof.
  destruct (key_is_record_name
    ["Section Headers:";
     "  [ 1] .vectors          PROGBITS        00000000 010000 0007d0 00  AX  0   0  8";
     "Symbol table '.symtab' contains 637 entries:";
     "   619: 3ed0069d    92 FUNC    GLOBAL DEFAULT    2 strlen"])
    as [Hsec Hsym].
  split.
  - apply (Hsec {[".vectors" := Sec.mk ".vectors" "PROGBITS" 0 65536 2000]});
      vm_compute; reflexivity.
  - apply (Hsym {["strlen" := Sym.mk 1053820573 92 "strlen"]});
      vm_compute; reflexivity.
Defined.

(** * Further properties *)

(** ** The change computer *)

(** X1. [_changes] reports nothing exactly when the two maps hold the
    same names with the same sizes; nothing else of a value, such as an
    address, is compared. *)
Theorem no_change_iff_same_sizes {A : Type} `{HasSize A}
    (old_map new_map : gmap string A) :
  _changes old_map new_map = ∅
  ↔ ∀ s, size_of <$> old_map !! s = size_of <$> new_map !! s.
Proof.
  split.
  - intros Hempty s. apply changes_lookup_none. by rewrite Hempty.
  - intros Hsame. apply map_eq. intros s. rewrite lookup_empty.
    by apply changes_lookup_none.
Qed.

(** X2. Exchanging the two maps mirrors every record: the sizes are
    swapped, the difference is negated, ["added"] and ["removed"] are
    exchanged and ["resize"] stays. *)
Theorem changes_swap {A : Type} `{HasSize A} (old_map new_map : gmap string A) :
  _changes new_map old_map = mirror <$> _changes old_map new_map.
Proof.
  apply map_eq. intros s. rewrite lookup_fmap, !changes_lookup.
  destruct (old_map !! s) as [o|], (new_map !! s) as [n|]; simpl; try done.
  - rewrite (Z.eqb_sym (size_of n)).
    destruct (size_of o =? size_of n); [done|]. simpl.
    unfold mirror. simpl. do 2 f_equal. lia.
  - unfold mirror. simpl. do 2 f_equal. lia.
Qed.

(** X3. Every record of [_changes] has [diff = new - old].  A
    ["resize"] record has a difference other than zero and its name in
    both maps; a ["removed"] record has [new = 0] and its name missing
    from the new map; an ["added"] record has [old = 0] and its name
    missing from the old map. *)
Theorem change_record_invariant {A : Type} `{HasSize A}
    (old_map new_map : gmap string A) (s : string) (c : Change.t) :
  _changes old_map new_map !! s = Some c →
  Change.diff c = Change.new c - Change.old c ∧
  ((Change.change c = "resize" ∧ (Change.diff c =? 0) = false ∧
    is_Some (old_map !! s) ∧ is_Some (new_map !! s)) ∨
   (Change.change c = "removed" ∧ Change.new c = 0 ∧ new_map !! s = None) ∨
   (Change.change c = "added" ∧ Change.old c = 0 ∧ old_map !! s = None)).
Proof.
  rewrite changes_lookup.
  destruct (old_map !! s) as [o|], (new_map !! s) as [n|]; simpl; try done.
  - destruct (size_of o =? size_of n) eqn:Hsz; [done|].
    intros [= <-]. simpl. split; [done|]. left.
    apply Z.eqb_neq in Hsz. repeat split; [|by eauto..].
    apply Z.eqb_neq. lia.
  - intros [= <-]. simpl. split; [lia|]. right. left. done.
  - intros [= <-]. simpl. split; [lia|]. right. right. done.
Qed.

Lemma change_record_invariant_witness :
  Change.diff (Change.mk 10 12 2 "resize")
    = Change.new (Change.mk 10 12 2 "resize")
      - Change.old (Change.mk 10 12 2 "resize") ∧
  ((Change.change (Change.mk 10 12 2 "resize") = "resize" ∧
    (Change.diff (Change.mk 10 12 2 "resize") =? 0) = false ∧
    is_Some (({["foo" := 10]} : gmap string Z) !! "foo") ∧
    is_Some (({["foo" := 12]} : gmap string Z) !! "foo")) ∨
   (Change.change (Change.mk 10 12 2 "resize") = "removed" ∧
    Change.new (Change.mk 10 12 2 "resize") = 0 ∧
    ({["foo" := 12]} : gmap string Z) !! "foo" = None) ∨
   (Change.change (Change.mk 10 12 2 "resize") = "added" ∧
    Change.old (Change.mk 10 12 2 "resize") = 0 ∧
    ({["foo" := 10]} : gmap string Z) !! "foo" = None)).
Proof.
  refine (change_record_invariant (A := Z) {["foo" := 10]} {["foo" := 12]}
            "foo" (Change.mk 10 12 2 "resize") _).
  vm_compute. reflexivity.
Defined.

(** X4. Against an empty old map every name of the new map is
    ["added"] with its size as difference; against an empty new map
    every name of the old map is ["removed"] with minus its size. *)
Theorem changes_of_empty {A : Type} `{HasSize A} (m : gmap string A) :
  _changes ∅ m = added_record <$> m ∧ _changes m ∅ = removed_record <$> m.
Proof.
  split; apply map_eq; intros s;
    rewrite lookup_fmap, changes_lookup, lookup_empty;
    by destruct (m !! s).
Qed.

(** ** The extraction passes *)

(** X5. Every key of the section dict is a non-empty text without
    white space and without decimal digits, and so is the type of its
    record; the address, the file offset and the size of the record are
    not negative. *)
Theorem section_records_well_formed (readelf_lines : list string)
    (secs : gmap string Sec.t) (k : string) (r : Sec.t) :
  _parse_readelf_sections readelf_lines = Some secs →
  secs !! k = Some r →
  field is_plain_char k ∧ field is_plain_char (Sec.type r) ∧
  0 ≤ Sec.address r ∧ 0 ≤ Sec.offset r ∧ 0 ≤ Sec.size r.
Proof.
  intros Hp Hk.
  destruct (parse_sections_lookup _ _ _ _ Hp Hk) as (f & m & _ & Hm & -> & ->).
  destruct (section_row_groups _ _ Hm)
    as (idx & name & ty & addr & off & sz & -> & _ & Hn & Ht & _).
  unfold section_of_groups, Re.group. simpl.
  split; [by apply (field_mono _ _ _ name_plain)|].
  split; [by apply (field_mono _ _ _ type_plain)|].
  repeat split; by apply positional_value_nonneg.
Qed.

Lemma section_records_well_formed_witness :
  field is_plain_char ".vectors" ∧
  field is_plain_char (Sec.type (Sec.mk ".vectors" "PROGBITS" 0 65536 2000)) ∧
  0 ≤ Sec.address (Sec.mk ".vectors" "PROGBITS" 0 65536 2000) ∧
  0 ≤ Sec.offset (Sec.mk ".vectors" "PROGBITS" 0 65536 2000) ∧
  0 ≤ Sec.size (Sec.mk ".vectors" "PROGBITS" 0 65536 2000).
Proof.
  refine (section_records_well_formed
    ["Section Headers:";
     "  [ 1] .vectors          PROGBITS        00000000 010000 0007d0 00  AX  0   0  8"]
    {[".vectors" := Sec.mk ".vectors" "PROGBITS" 0 65536 2000]}
    ".vectors" (Sec.mk ".vectors" "PROGBITS" 0 65536 2000) _ _);
    vm_compute; reflexivity.
Defined.

(** X6. Every key of the symbol dict is a non-empty text of word
    characters and dots, and the address and the size of its record are
    not negative. *)
Theorem symbol_records_well_formed (readelf_lines : list string)
    (syms : gmap string Sym.t) (k : string) (s : Sym.t) :
  _parse_readelf_symbols readelf_lines = Some syms →
  syms !! k = Some s →
  field is_symbol_name_char k ∧ 0 ≤ Sym.address s ∧ 0 ≤ Sym.size s.
Proof.
  intros Hp Hk.
  destruct (parse_symbols_lookup _ _ _ _ Hp Hk) as (l & m & _ & Hm & -> & ->).
  destruct (symbol_row_groups _ _ Hm)
    as (addr & sz & ty & bind & vis & ndx & name & -> & _ & _ & Hn).
  unfold symbol_of_groups, Re.group. simpl.
  split; [by apply (field_ext _ _ _ symbol_name_set)|].
  split; by apply positional_value_nonneg.
Qed.

Lemma symbol_records_well_formed_witness :
  field is_symbol_name_char "strlen" ∧
  0 ≤ Sym.address (Sym.mk 1053820573 92 "strlen") ∧
  0 ≤ Sym.size (Sym.mk 1053820573 92 "strlen").
Proof.
  refine (symbol_records_well_formed
    ["Symbol table '.symtab' contains 637 entries:";
     "   619: 3ed0069d    92 FUNC    GLOBAL DEFAULT    2 strlen"]
    {["strlen" := Sym.mk 1053820573 92 "strlen"]}
    "strlen" (Sym.mk 1053820573 92 "strlen") _ _);
    vm_compute; reflexivity.
Defined.

(** X7. Reading more lines never loses a name: a name in the dict of
    some lines is in the dict of these lines followed by any others,
    in both passes. *)
Theorem names_accumulate (l1 l2 : list string) (k : string) :
  (∀ m1 m2, _parse_readelf_sections l1 = Some m1 →
            _parse_readelf_sections (l1 ++ l2) = Some m2 →
            is_Some (m1 !! k) → is_Some (m2 !! k)) ∧
  (∀ m1 m2, _parse_readelf_symbols l1 = Some m1 →
            _parse_readelf_symbols (l1 ++ l2) = Some m2 →
            is_Some (m1 !! k) → is_Some (m2 !! k)).
Proof.
  split; intros m1 m2 H1 H2 Hk.
  - unfold _parse_readelf_sections in *. rewrite sections_loop_app in H2.
    destruct (sections_loop (false, ∅) l1) as [[b1 d1]|]; simplify_eq/=.
    destruct (sections_loop (b1, m1) l2) as [[b2 d2]|] eqn:Hl; simplify_eq/=.
    by eapply sections_loop_keeps.
  - unfold _parse_readelf_symbols in *. rewrite symbols_loop_app in H2.
    destruct (symbols_loop (false, ∅) l1) as [[b1 d1]|]; simplify_eq/=.
    destruct (symbols_loop (b1, m1) l2) as [[b2 d2]|] eqn:Hl; simplify_eq/=.
    by eapply symbols_loop_keeps.
Qed.

Lemma names_accumulate_witness :
  is_Some (({[".data" := Sec.mk ".data" "PROGBITS" 32 65568 48]}
            : gmap string Sec.t) !! ".data").
Proof.
  destruct (names_accumulate
    ["Section Headers:"; "  [ 1] .data PROGBITS 00000000 010000 000010"]
    ["  [ 3] .data PROGBITS 00000020 010020 000030"] ".data") as [Hsec _].
  apply (Hsec {[".data" := Sec.mk ".data" "PROGBITS" 0 65536 16]});
    vm_compute; eauto.
Defined.

(** X8. Lines before the first header are passed over, rows among them
    too: leading lines without the section marker do not change the
    section dict, and leading lines that do not begin a symbol table do
    not change the symbol dict. *)
Theorem lines_before_header_ignored (junk junk' rest : list string) :
  Forall (λ f, contains "Section Headers:" f = false) junk →
  Forall (λ l, startswith l "Symbol table " = false) junk' →
  _parse_readelf_sections (junk ++ rest) = _parse_readelf_sections rest ∧
  _parse_readelf_symbols (junk' ++ rest) = _parse_readelf_symbols rest.
Proof.
  intros Hj Hj'. unfold _parse_readelf_sections, _parse_readelf_symbols.
  by rewrite (sections_loop_skip _ _ _ Hj), (symbols_loop_skip _ _ _ Hj').
Qed.

Lemma lines_before_header_ignored_witness :
  _parse_readelf_sections
    (["  [ 1] .early PROGBITS 00000000 010000 000010"]
     ++ ["Section Headers:"; "  [ 2] .data PROGBITS 00000000 010000 000010"])
  = _parse_readelf_sections
      ["Section Headers:"; "  [ 2] .data PROGBITS 00000000 010000 000010"] ∧
  _parse_readelf_symbols
    (["     1: 3ed04a28    10 FUNC    WEAK   DEFAULT    2 early";
      " Symbol table with a blank before it"]
     ++ ["Section Headers:"; "  [ 2] .data PROGBITS 00000000 010000 000010"])
  = _parse_readelf_symbols
      ["Section Headers:"; "  [ 2] .data PROGBITS 00000000 010000 000010"].
Proof.
  apply lines_before_header_ignored; repeat constructor.
Defined.

(** X9. Inside a symbol table a line is accepted exactly when it has
    the shape of a symbol row.  A line of that shape whose name is not
    followed by a further word character or dot stores the record of
    its name, its address read in base 16 and its size read in base 10,
    under that name, when the size has no more digits than [int] reads
    in base 10; when it has more, the turn of the loop raises.  A line
    not of the shape stores nothing. *)
Theorem symbol_row_accepted (syms : gmap string Sym.t) (l : string) :
  ((∃ num addr sz ty bind vis ndx name rest,
      symbol_row_shape l num addr sz ty bind vis ndx name rest)
   ↔ is_Some (Re.re_match true symbol_row l)) ∧
  (∀ num addr sz ty bind vis ndx name rest,
     symbol_row_shape l num addr sz ty bind vis ndx name rest →
     head_in is_symbol_name_char rest = false →
     symbols_step (true, syms) l
     = if (String.length sz <=? int_max_str_digits)%nat
       then Some (true, <[name := Sym.mk (positional_value 16 addr)
                                         (positional_value 10 sz) name]> syms)
       else None) ∧
  ((¬ ∃ num addr sz ty bind vis ndx name rest,
      symbol_row_shape l num addr sz ty bind vis ndx name rest) →
   symbols_step (true, syms) l = Some (true, syms)).
Proof.
  split; [split|split].
  - intros (num & addr & sz & ty & bind & vis & ndx & name & rest & Hshape).
    by eapply symbol_row_shape_complete.
  - intros [m Hm].
    apply symbol_row_shape_sound in Hm
      as (num & addr & sz & ty & bind & vis & ndx & name & rest & _ & Hshape).
    by exists num, addr, sz, ty, bind, vis, ndx, name, rest.
  - intros num addr sz ty bind vis ndx name rest Hshape Hrest.
    by rewrite (symbols_step_row _ _ _
                  (symbol_row_shape_groups _ _ _ _ _ _ _ _ _ _ Hshape Hrest)).
  - intros Hno. apply symbols_step_other.
    destruct (Re.re_match true symbol_row l) as [m|] eqn:Hm; [|done].
    destruct Hno.
    apply symbol_row_shape_sound in Hm
      as (num & addr & sz & ty & bind & vis & ndx & name & rest & _ & Hshape).
    by exists num, addr, sz, ty, bind, vis, ndx, name, rest.
Qed.

Lemma symbol_row_accepted_witness :
  symbols_step (true, ∅)
    "   613: 3ed02e00    56 FUNC    GLOBAL DEFAULT    2 printf@@GLIBC_2.4"
  = Some (true, <["printf" := Sym.mk (positional_value 16 "3ed02e00")
                                     (positional_value 10 "56") "printf"]> ∅).
Proof.
  destruct (symbol_row_accepted ∅
    "   613: 3ed02e00    56 FUNC    GLOBAL DEFAULT    2 printf@@GLIBC_2.4")
    as (_ & Hrow & _).
  apply (Hrow "613" "3ed02e00" "56" "FUNC" "GLOBAL" "DEFAULT" "2" "printf"
              "@@GLIBC_2.4"); [|reflexivity].
  exists " ". split; [|vm_compute; repeat split; discriminate].
  exists "   ", " ", "    ", " ", "    ", " ", "    ".
  vm_compute. repeat split; discriminate.
Defined.

(** X10. A symbol row whose section index is a word that is not a
    number, as [UND] or [ABS] are, is not accepted: the symbol pass
    stores nothing for it. *)
Theorem symbol_row_word_index_skipped (syms : gmap string Sym.t)
    (l num addr sz ty bind vis ndx tail : string) :
  symbol_row_fields Char.isword l num addr sz ty bind vis ndx tail →
  all_in Char.isdecimal ndx = false →
  head_in Char.isword tail = false →
  Re.re_match true symbol_row l = None ∧
  symbols_step (true, syms) l = Some (true, syms).
Proof.
  intros Hfields Hndx Htail.
  pose proof (symbol_row_word_index _ _ _ _ _ _ _ _ _ Hfields Hndx Htail) as Hm.
  split; [done|]. by apply symbols_step_other.
Qed.

Lemma symbol_row_word_index_skipped_witness :
  Re.re_match true symbol_row
    "   620: 00000000     0 NOTYPE  GLOBAL DEFAULT  UND malloc" = None ∧
  symbols_step (true, ∅)
    "   620: 00000000     0 NOTYPE  GLOBAL DEFAULT  UND malloc" = Some (true, ∅).
Proof.
  apply (symbol_row_word_index_skipped ∅ _ "620" "00000000" "0" "NOTYPE"
           "GLOBAL" "DEFAULT" "UND" " malloc"); [|reflexivity..].
  exists "   ", " ", "     ", " ", "  ", " ", "  ".
  vm_compute. repeat split; discriminate.
Defined.

(** X11. A section row whose name, made of word characters and dots,
    holds a decimal digit is not accepted: inside a table it stores
    nothing and leaves the table open. *)
Theorem section_row_digit_name_skipped (secs : gmap string Sec.t)
    (f ws0 idx ws1 name tail : string) :
  f = ws0 +:+ "[" +:+ idx +:+ "]" +:+ ws1 +:+ name +:+ tail →
  all_in Char.isspace ws0 = true → field is_index_char idx →
  field Char.isspace ws1 → field is_symbol_name_char name →
  all_in (λ c, negb (Char.isdecimal c)) name = false →
  head_in is_symbol_name_char tail = false →
  Re.re_match true section_row f = None ∧
  sections_step (true, secs) f = Some (true, secs).
Proof.
  intros Hf H0 Hi H1 Hn Hdigit Htail.
  assert (all_in is_section_name_char name = false) as Hbad.
  { destruct (all_in is_section_name_char name) eqn:Hall; [|done].
    apply (all_in_impl _ _ _ section_name_no_digit) in Hall. congruence. }
  pose proof (section_row_other_name _ _ _ _ _ _ Hf H0 Hi H1 Hn Hbad Htail)
    as Hm.
  split; [done|]. rewrite (sections_step_other _ _ Hm).
  subst f. rewrite all_in_app, app_cons. simpl. by rewrite andb_false_r.
Qed.

Lemma section_row_digit_name_skipped_witness :
  Re.re_match true section_row
    "  [ 5] .rodata.str1.1    PROGBITS        00000000 010000 0007d0" = None ∧
  sections_step (true, ∅)
    "  [ 5] .rodata.str1.1    PROGBITS        00000000 010000 0007d0"
  = Some (true, ∅).
Proof.
  apply (section_row_digit_name_skipped ∅ _ "  " " 5" " " ".rodata.str1.1"
           "    PROGBITS        00000000 010000 0007d0");
    first [reflexivity | vm_compute; repeat split; discriminate].
Defined.

(** X20. The symbol pass returns exactly when the size of every row it
    tests can be read, and the only line whose size cannot be read is
    one that matches the row pattern with a size field of more than
    4300 digits. *)
Theorem symbol_pass_returns_iff (readelf_lines : list string) :
  (is_Some (_parse_readelf_symbols readelf_lines)
   ↔ sizes_readable false readelf_lines = true) ∧
  (∀ l, size_readable l = false
        ↔ ∃ m, Re.re_match true symbol_row l = Some m ∧
               (int_max_str_digits < String.length (Re.group m 2))%nat).
Proof.
  split.
  - rewrite parse_symbols_rows.
    destruct (sizes_readable false readelf_lines); split;
      first [done | by eexists | by intros [? ?]].
  - intros l. unfold size_readable.
    destruct (Re.re_match true symbol_row l) as [m|].
    + destruct (Nat.leb_spec (String.length (Re.group m 2)) int_max_str_digits).
      * split; [done|]. intros (m' & [= <-] & ?). lia.
      * split; [|done]. intros _. by exists m.
    + split; [done|]. by intros (m' & ? & _).
Qed.

(** ** The object and its two reports *)

Section ToolFacts.
Variable run_stdout : list string → option string.

(** What [__init__] did when it returned. *)
Lemma init_inv old_elf new_elf prefix e :
  __init__ run_stdout old_elf new_elf prefix = Some e →
  ∃ old new,
    run_stdout [prefix +:+ "readelf"; "-a"; old_elf] = Some old ∧
    run_stdout [prefix +:+ "readelf"; "-a"; new_elf] = Some new ∧
    _parse_readelf_sections (split newline old) = Some (_old_sections e) ∧
    _parse_readelf_sections (split newline new) = Some (_new_sections e) ∧
    _parse_readelf_symbols (split newline old) = Some (_old_symbols e) ∧
    _parse_readelf_symbols (split newline new) = Some (_new_symbols e).
Proof.
  unfold __init__, _capture_readelf. intros Hinit.
  destruct (run_stdout [prefix +:+ "readelf"; "-a"; old_elf]) as [old|];
    [|done].
  destruct (run_stdout [prefix +:+ "readelf"; "-a"; new_elf]) as [new|];
    [|done].
  cbn [mbind option_bind] in Hinit.
  destruct (_parse_readelf_sections (split newline old)) as [so|] eqn:Hso;
    cbn [mbind option_bind] in Hinit; [|done].
  destruct (_parse_readelf_sections (split newline new)) as [sn|] eqn:Hsn;
    cbn [mbind option_bind] in Hinit; [|done].
  destruct (_parse_readelf_symbols (split newline old)) as [yo|] eqn:Hyo;
    cbn [mbind option_bind] in Hinit; [|done].
  destruct (_parse_readelf_symbols (split newline new)) as [yn|] eqn:Hyn;
    cbn [mbind option_bind] in Hinit; [|done].
  simplify_eq. exists old, new. simpl. by rewrite Hso, Hsn, Hyo, Hyn.
Qed.

End ToolFacts.

(** X12. [_capture_readelf] runs [<prefix>readelf -a <file>] and cuts
    its output at the line feeds: the lines hold no line feed, and
    joined by line feeds they are the output again. *)
Theorem capture_round_trip (run_stdout : list string → option string)
    (prefix elffile text : string) :
  run_stdout [prefix +:+ "readelf"; "-a"; elffile] = Some text →
  ∃ lines,
    _capture_readelf run_stdout prefix elffile = Some lines ∧
    join newline lines = text ∧
    Forall (λ l, all_in (is_not newline) l = true) lines.
Proof.
  intros Hrun. exists (split newline text). unfold _capture_readelf.
  rewrite Hrun. split; [done|]. split.
  - apply join_split.
  - apply split_without_sep.
Qed.

Lemma capture_round_trip_witness :
  ∃ lines,
    _capture_readelf
      (λ argv, Some (join newline ("Section Headers:" :: argv)))
      "arm-none-eabi-" "a.out" = Some lines ∧
    join newline lines
    = join newline ["Section Headers:"; "arm-none-eabi-readelf"; "-a"; "a.out"] ∧
    Forall (λ l, all_in (is_not newline) l = true) lines.
Proof.
  apply (capture_round_trip
           (λ argv, Some (join newline ("Section Headers:" :: argv)))
           "arm-none-eabi-" "a.out").
  reflexivity.
Defined.


(** X14. When the tool prints the same for both files, as it does for
    one file given twice, both reports are empty. *)
Theorem same_output_no_changes (run_stdout : list string → option string)
    (old_elf new_elf prefix : string) (e : ElfChanges) :
  run_stdout [prefix +:+ "readelf"; "-a"; old_elf]
    = run_stdout [prefix +:+ "readelf"; "-a"; new_elf] →
  __init__ run_stdout old_elf new_elf prefix = Some e →
  section_changes e = ∅ ∧ symbol_changes e = ∅.
Proof.
  intros Hsame Hinit.
  destruct (init_inv _ _ _ _ _ Hinit)
    as (old & new & Ho & Hn & Hso & Hsn & Hyo & Hyn).
  assert (old = new) as -> by congruence.
  assert (_old_sections e = _new_sections e) as Hs by congruence.
  assert (_old_symbols e = _new_symbols e) as Hy by congruence.
  unfold section_changes, symbol_changes. rewrite Hs, Hy.
  split; apply map_eq; intros s; rewrite lookup_empty;
    by apply changes_lookup_none.
Qed.

Lemma same_output_no_changes_witness :
  section_changes
    (mkElfChanges EmptyString
       {[".data" := Sec.mk ".data" "PROGBITS" 0 65536 16]}
       {[".data" := Sec.mk ".data" "PROGBITS" 0 65536 16]} ∅ ∅) = ∅ ∧
  symbol_changes
    (mkElfChanges EmptyString
       {[".data" := Sec.mk ".data" "PROGBITS" 0 65536 16]}
       {[".data" := Sec.mk ".data" "PROGBITS" 0 65536 16]} ∅ ∅) = ∅.
Proof.
  refine (same_output_no_changes
    (λ _, Some (join newline
                  ["Section Headers:";
                   "  [ 1] .data PROGBITS 00000000 010000 000010"]))
    "a.out" "a.out" EmptyString _ _ _); vm_compute; reflexivity.
Defined.

(** X15. The exit status of the tool is not looked at: when the tool
    prints nothing for the old file, every section and symbol of the
    new file is reported ["added"]; when it prints nothing for the new
    file, every section and symbol of the old file is reported
    ["removed"]. *)
Theorem silent_tool_reports_everything
    (run_stdout : list string → option string)
    (old_elf new_elf prefix : string) (e : ElfChanges) :
  __init__ run_stdout old_elf new_elf prefix = Some e →
  (run_stdout [prefix +:+ "readelf"; "-a"; old_elf] = Some EmptyString →
   section_changes e = added_record <$> _new_sections e ∧
   symbol_changes e = added_record <$> _new_symbols e) ∧
  (run_stdout [prefix +:+ "readelf"; "-a"; new_elf] = Some EmptyString →
   section_changes e = removed_record <$> _old_sections e ∧
   symbol_changes e = removed_record <$> _old_symbols e).
Proof.
  intros Hinit.
  destruct (init_inv _ _ _ _ _ Hinit)
    as (old & new & Ho & Hn & Hso & Hsn & Hyo & Hyn).
  unfold section_changes, symbol_changes. split.
  - intros Hsilent. rewrite Hsilent in Ho. injection Ho as <-.
    change (Some (∅ : gmap string Sec.t) = Some (_old_sections e)) in Hso.
    change (Some (∅ : gmap string Sym.t) = Some (_old_symbols e)) in Hyo.
    injection Hso as <-. injection Hyo as <-.
    split; apply changes_from_empty_old.
  - intros Hsilent. rewrite Hsilent in Hn. injection Hn as <-.
    change (Some (∅ : gmap string Sec.t) = Some (_new_sections e)) in Hsn.
    change (Some (∅ : gmap string Sym.t) = Some (_new_symbols e)) in Hyn.
    injection Hsn as <-. injection Hyn as <-.
    split; apply changes_to_empty_new.
Qed.

Lemma silent_tool_reports_everything_witness :
  section_changes
    (mkElfChanges EmptyString ∅
       {[".data" := Sec.mk ".data" "PROGBITS" 0 65536 16]} ∅ ∅)
  = {[".data" := Change.mk 0 16 16 "added"]}.
Proof.
  destruct (silent_tool_reports_everything
    (λ argv, if decide (argv = ["readelf"; "-a"; "old.elf"])
             then Some EmptyString
             else Some (join newline
                          ["Section Headers:";
                           "  [ 1] .data PROGBITS 00000000 010000 000010"]))
    "old.elf" "new.elf" EmptyString
    (mkElfChanges EmptyString ∅
       {[".data" := Sec.mk ".data" "PROGBITS" 0 65536 16]} ∅ ∅))
    as [Hold _].
  - vm_compute. reflexivity.
  - destruct Hold as [Hsec _]; [vm_compute; reflexivity|].
    etrans; [exact Hsec|]. vm_compute. reflexivity.
Defined.

(** X16. In both reports the sizes [old] and [new] of every record are
    not negative, a ["removed"] record has a difference of at most zero
    and an ["added"] record a difference of at least zero. *)
Theorem report_signs (run_stdout : list string → option string)
    (old_elf new_elf prefix : string) (e : ElfChanges)
    (s : string) (c : Change.t) :
  __init__ run_stdout old_elf new_elf prefix = Some e →
  section_changes e !! s = Some c ∨ symbol_changes e !! s = Some c →
  0 ≤ Change.old c ∧ 0 ≤ Change.new c ∧
  (Change.change c = "removed" → Change.diff c ≤ 0) ∧
  (Change.change c = "added" → 0 ≤ Change.diff c).
Proof.
  intros Hinit Hc.
  destruct (init_inv _ _ _ _ _ Hinit)
    as (old & new & Ho & Hn & Hso & Hsn & Hyo & Hyn).
  unfold section_changes, symbol_changes in Hc.
  rewrite !changes_lookup in Hc. destruct Hc as [Hc|Hc].
  - assert (∀ r, _old_sections e !! s = Some r → 0 ≤ size_of r) as Hold.
    { intros r Hr.
      by destruct (section_records_nonneg _ _ _ _ Hso Hr) as (_ & _ & ?). }
    assert (∀ r, _new_sections e !! s = Some r → 0 ≤ size_of r) as Hnew.
    { intros r Hr.
      by destruct (section_records_nonneg _ _ _ _ Hsn Hr) as (_ & _ & ?). }
    destruct (_old_sections e !! s) as [o|], (_new_sections e !! s) as [n|];
      simpl in Hc; try done.
    + specialize (Hold o eq_refl). specialize (Hnew n eq_refl).
      destruct (size_of o =? size_of n); [done|]. simplify_eq. simpl.
      repeat split; done.
    + specialize (Hold o eq_refl). simplify_eq. simpl.
      repeat split; try done; lia.
    + specialize (Hnew n eq_refl). simplify_eq. simpl.
      repeat split; try done; lia.
  - assert (∀ r, _old_symbols e !! s = Some r → 0 ≤ size_of r) as Hold.
    { intros r Hr.
      by destruct (symbol_records_nonneg _ _ _ _ Hyo Hr) as (_ & ?). }
    assert (∀ r, _new_symbols e !! s = Some r → 0 ≤ size_of r) as Hnew.
    { intros r Hr.
      by destruct (symbol_records_nonneg _ _ _ _ Hyn Hr) as (_ & ?). }
    destruct (_old_symbols e !! s) as [o|], (_new_symbols e !! s) as [n|];
      simpl in Hc; try done.
    + specialize (Hold o eq_refl). specialize (Hnew n eq_refl).
      destruct (size_of o =? size_of n); [done|]. simplify_eq. simpl.
      repeat split; done.
    + specialize (Hold o eq_refl). simplify_eq. simpl.
      repeat split; try done; lia.
    + specialize (Hnew n eq_refl). simplify_eq. simpl.
      repeat split; try done; lia.
Qed.

Lemma report_signs_witness :
  0 ≤ Change.old (Change.mk 16 0 (-16) "removed") ∧
  0 ≤ Change.new (Change.mk 16 0 (-16) "removed") ∧
  (Change.change (Change.mk 16 0 (-16) "removed") = "removed" →
   Change.diff (Change.mk 16 0 (-16) "removed") ≤ 0) ∧
  (Change.change (Change.mk 16 0 (-16) "removed") = "added" →
   0 ≤ Change.diff (Change.mk 16 0 (-16) "removed")).
Proof.
  refine (report_signs
    (λ argv, if decide (argv = ["readelf"; "-a"; "new.elf"])
             then Some EmptyString
             else Some (join newline
                          ["Section Headers:";
                           "  [ 1] .data PROGBITS 00000000 010000 000010"]))
    "old.elf" "new.elf" EmptyString
    (mkElfChanges EmptyString
       {[".data" := Sec.mk ".data" "PROGBITS" 0 65536 16]} ∅ ∅ ∅)
    ".data" (Change.mk 16 0 (-16) "removed") _ _).
  - vm_compute. reflexivity.
  - left. vm_compute. reflexivity.
Defined.

(** ** The two table writers *)

(** X17. Either writer returns exactly when every row of the table has
    every key of the list, with a value that can be printed: a missing
    key makes the subscript of line 137, or of line 153, raise, and a
    number of more than 4300 digits makes the formatting of the same
    line raise.  In particular an empty table is written whatever the
    keys are. *)
Theorem table_writers_return_iff {D : Type} `{Subscript D}
    (title : string) (map_table : list (string * D)) (keys : list string)
    (out : string) :
  (fst (output_text_table title map_table keys out) = Some ()
   ↔ Forall (λ row, Forall (cell_writable row.2) keys) map_table) ∧
  (fst (output_html_table title map_table keys out) = Some ()
   ↔ Forall (λ row, Forall (cell_writable row.2) keys) map_table).
Proof.
  split; [apply output_text_table_returns|apply output_html_table_returns].
Qed.

(** X18. On a table of change records and with the keys the program
    passes, either writer returns exactly when the three numbers of
    every record can be printed. *)
Theorem change_tables_return_iff (title : string)
    (map_table : list (string * Change.t)) (out : string) :
  (fst (output_text_table title map_table report_keys out) = Some ()
   ↔ Forall (λ row, change_printable row.2 = true) map_table) ∧
  (fst (output_html_table title map_table report_keys out) = Some ()
   ↔ Forall (λ row, change_printable row.2 = true) map_table).
Proof.
  assert (∀ c : Change.t,
            Forall (cell_writable c) report_keys ↔ change_printable c = true)
    as Hrow.
  { intros c. unfold report_keys, change_printable, cell_writable.
    rewrite !Forall_cons, !andb_true_iff. split.
    - intros ((vo & [= <-] & Ho) & (vn & [= <-] & Hn) & (vd & [= <-] & Hd) & _).
      done.
    - intros [[Ho Hn] Hd].
      split; [by eexists|]. split; [by eexists|]. split; [by eexists|].
      split; [|by constructor]. by eexists. }
  assert (Forall (λ row : string * Change.t,
                    Forall (cell_writable row.2) report_keys) map_table
          ↔ Forall (λ row : string * Change.t,
                      change_printable row.2 = true) map_table) as Hrows.
  { apply Forall_iff. intros [m c]. apply Hrow. }
  split.
  - by rewrite output_text_table_returns.
  - by rewrite output_html_table_returns.
Qed.

Section LayoutFacts.
Context {D : Type} `{Subscript D}.

(** The rows of a table whose texts fit: a line each, as wide as the
    header, beginning with the name. *)
Lemma text_rows keys (map_table : list (string * D)) out :
  Forall (λ row,
            (String.length row.1 ≤ 30)%nat ∧
            Forall (λ k, ∃ v, getitem row.2 k = Some v ∧
                              (String.length (str v) ≤ 10)%nat) keys)
         map_table →
  ∃ lines,
    for_each map_table (λ '(m, d),
      write (percent_minus_s 30 m) ;;
      for_each keys (λ k, v ← subscript d k;
                          cell ← raising (format_10 v);
                          write (" | " +:+ cell)) ;;
      write (String newline EmptyString)) out
    = (Some (), out +:+ lines_text lines) ∧
    Forall2 (λ row line,
               String.prefix row.1 line = true ∧
               String.length line = (30 + 13 * length keys)%nat)
            map_table lines.
Proof.
  intros Hrows. revert out.
  induction Hrows as [|[m d] rows [Hm Hd] _ IH]; intros out.
  - exists []. split; [|constructor]. simpl. unfold mret, io_ret.
    f_equal. induction out as [|a out IHo]; [done|].
    by rewrite app_cons, <- IHo.
  - simpl in Hm, Hd.
    destruct (row_cells d keys (out +:+ percent_minus_s 30 m) Hd)
      as (w & Hcells & Hw).
    destruct (IH (((out +:+ percent_minus_s 30 m) +:+ w)
                  +:+ String newline EmptyString)) as (lines & Hloop & Hlines).
    exists ((percent_minus_s 30 m +:+ w) :: lines). split.
    + rewrite for_each_cons. cbv beta iota.
      rewrite write_then, io_bind_eq, Hcells. cbv beta iota.
      rewrite write_eq, Hloop.
      f_equal. simpl. by rewrite !app_assoc_string.
    + constructor; [|done]. simpl. split.
      * unfold percent_minus_s, ljust. rewrite app_assoc_string.
        apply prefix_app.
      * rewrite length_app, Hw. unfold percent_minus_s.
        by rewrite (length_ljust _ _ Hm).
Qed.

End LayoutFacts.

(** X19. When every name has at most 30 characters, every key at most
    10 and every cell text at most 10, the text table is the title, a
    header of [30 + 13 * len(keys)] characters, the rule and then one
    line for each row in order, each as wide as the header and
    beginning with the name of its row, and two empty lines; all of it
    is added after what was written before. *)
Theorem text_table_layout {D : Type} `{Subscript D}
    (title : string) (map_table : list (string * D)) (keys : list string)
    (out : string) :
  Forall (λ k, (String.length k ≤ 10)%nat) keys →
  Forall (λ row,
            (String.length row.1 ≤ 30)%nat ∧
            Forall (λ k, ∃ v, getitem row.2 k = Some v ∧
                              (String.length (str v) ≤ 10)%nat) keys)
         map_table →
  ∃ header lines,
    output_text_table title map_table keys out
    = (Some (),
       out +:+ lines_text ([title; header;
                            repeat_string "------------" (length keys + 3)]
                           ++ lines ++ [EmptyString; EmptyString])) ∧
    String.length header = (30 + 13 * length keys)%nat ∧
    Forall2 (λ row line,
               String.prefix row.1 line = true ∧
               String.length line = (30 + 13 * length keys)%nat)
            map_table lines.
Proof.
  intros Hkeys Hrows.
  destruct (header_cells keys
              ((out +:+ title +:+ String newline EmptyString)
               +:+ percent_minus_s 30 "name") Hkeys) as (h & Hheader & Hh).
  destruct (text_rows keys map_table
              ((((((out +:+ title +:+ String newline EmptyString)
                   +:+ percent_minus_s 30 "name") +:+ h)
                 +:+ String newline EmptyString)
                +:+ repeat_string "------------" (length keys + 3))
               +:+ String newline EmptyString) Hrows)
    as (lines & Hloop & Hlines).
  exists (percent_minus_s 30 "name" +:+ h), lines.
  split; [|split; [|done]].
  - unfold output_text_table.
    rewrite !write_then, io_bind_eq, Hheader. cbv beta iota.
    rewrite !write_then, io_bind_eq, Hloop. cbv beta iota.
    rewrite write_eq. f_equal.
    assert (∀ a b, lines_text (a ++ b) = lines_text a +:+ lines_text b) as Happ.
    { intros a b. induction a as [|x a IHa]; [done|].
      simpl. by rewrite IHa, app_assoc_string. }
    rewrite Happ, Happ. simpl.
    repeat rewrite ?app_assoc_string, ?app_cons, ?app_empty_l.
    reflexivity.
  - rewrite length_app, Hh. reflexivity.
Qed.

Lemma text_table_layout_witness :
  ∃ header lines,
    output_text_table "Symbol Changes"
      [("foo", Change.mk 10 12 2 "resize"); ("bar", Change.mk 4 0 (-4) "removed")]
      report_keys EmptyString
    = (Some (),
       EmptyString +:+
       lines_text (["Symbol Changes"; header;
                    repeat_string "------------" (length report_keys + 3)]
                   ++ lines ++ [EmptyString; EmptyString])) ∧
    String.length header = (30 + 13 * length report_keys)%nat ∧
    Forall2 (λ (row : string * Change.t) line,
               String.prefix row.1 line = true ∧
               String.length line = (30 + 13 * length report_keys)%nat)
      [("foo", Change.mk 10 12 2 "resize"); ("bar", Change.mk 4 0 (-4) "removed")]
      lines.
Proof.
  apply text_table_layout.
  - repeat constructor.
  - repeat constructor; eexists; (split; [reflexivity|vm_compute; lia]).
Defined.
